(** * SecureString: a shallow embedding of the protected character buffer

    The development follows [SecureString.h], [Encryptor.h] and
    [SecureStringExceptions.h].  The class template [SecureString<Char>] is
    embedded as a record of its data members together with one function per
    member function.  The mutex [m_lock] serialises the member functions, so
    each of them is modelled as one atomic step on the record.

    Conventions.
    - A character unit ([char] or [wchar_t]) is an integer; [sizeof(Char)] is
      a parameter of the model.
    - [size_t] quantities are natural numbers.  The member functions are
      followed for sizes of arrays that exist in memory, where the
      wrap-around of [size_t] is not reached; the capacity computation is
      given a second time in the arithmetic of [size_t]
      ([encryptor_required_bytes_size_t], [ensure_capacity_size_t]) and
      shown to agree with the first when the sizes fit.
    - A pointer to an array is [option (list Char)]: [None] is [nullptr],
      [Some l] is an array whose elements are [l].
    - Code that can leave the defined behaviour of C++ (an access outside an
      array, a division by zero, [strlen] on an unterminated array) returns
      an [outcome]; [Undefined] marks exactly those executions. *)

From Stdlib Require Import List ZArith Lia Bool Arith PeanoNat.
Import ListNotations.

(** ** Executions with undefined behaviour *)

Inductive outcome (A : Type) : Type :=
| Returns (a : A)
| Undefined.

Arguments Returns {A} a.
Arguments Undefined {A}.

Definition bind {A B : Type} (m : outcome A) (k : A -> outcome B) : outcome B :=
  match m with
  | Returns a => k a
  | Undefined => Undefined
  end.

Notation "'let*' x ':=' m 'in' k" :=
  (bind m (fun x => k))
  (at level 10, x pattern, m at level 100, k at level 200).

(** ** Character units and arrays *)

Definition Char := Z.

Definition NUL : Char := 0%Z.

(** [p[i] = v] *)
Definition store (l : list Char) (i : nat) (v : Char) : outcome (list Char) :=
  if i <? length l then Returns (firstn i l ++ v :: skipn (S i) l) else Undefined.

(** [p[i]] *)
Definition load (l : list Char) (i : nat) : outcome Char :=
  match nth_error l i with
  | Some v => Returns v
  | None => Undefined
  end.

(** [std::copy(src, src + n, dst)] *)
Definition copy (src : list Char) (n : nat) (dst : list Char) : outcome (list Char) :=
  if (n <=? length src) && (n <=? length dst)
  then Returns (firstn n src ++ skipn n dst)
  else Undefined.

(** [std::copy(src, src + n, dst)] where [src] may be the null pointer: an
    empty range is copied without any access. *)
Definition copy_from (src : option (list Char)) (n : nat) (dst : list Char)
  : outcome (list Char) :=
  match src with
  | Some l => copy l n dst
  | None => if n =? 0 then Returns dst else Undefined
  end.

(** [std::fill(p, p + n, v)] *)
Definition fill (l : list Char) (n : nat) (v : Char) : outcome (list Char) :=
  if n <=? length l then Returns (repeat v n ++ skipn n l) else Undefined.

(** The characters of a NUL-terminated array up to, and without, the first
    NUL; this is what [std::basic_string<Char>(const Char* )] keeps. *)
Fixpoint c_str_prefix (l : list Char) : list Char :=
  match l with
  | [] => []
  | c :: r => if Z.eqb c NUL then [] else c :: c_str_prefix r
  end.

(** [strlen] / [wcslen]: undefined when no terminator is found in the array. *)
Fixpoint strlen (l : list Char) : outcome nat :=
  match l with
  | [] => Undefined
  | c :: r => if Z.eqb c NUL then Returns 0 else let* n := strlen r in Returns (S n)
  end.

(** ** Error codes of <cerrno> used by the class *)

Definition EPERM : Z := 1.
Definition E2BIG : Z := 7.
Definition ENOMEM : Z := 12.

(** ** Encryptor.h *)

Inductive encryption_flags : Type :=
| ACCESSIBLE_SAME_PROCESS
| ACCESSIBLE_CROSS_PROCESS
| ACCESSIBLE_SAME_LOGON.

(** The abstract base class.  [encrypt] and [decrypt] overwrite the buffer in
    place and return an error code; here they return the code together with
    the new content of the buffer, given as the character units it holds. *)
Record Encryptor : Type := {
  encryption_supported : bool;
  encrypt : list Char -> nat -> encryption_flags -> Z * list Char;
  decrypt : list Char -> nat -> encryption_flags -> Z * list Char;
  block_size : nat
}.

(** ** SecureStringExceptions.h *)

Inductive exception : Type :=
| SecureStringEncryptorException
| SecureStringEncryptionException (err : Z)
| SecureStringDecryptionException (err : Z)
| SecureStringInitializationException
| SecureStringCapacityException (size : nat)
| SecureStringReadOnlyException
| SecureStringOffsetException (offset size : nat).

(** ** The free store

    [new Char[n]] delivers an array of [n] units whose content is
    indeterminate, or no array at all.  The source tests the result against
    the null pointer, and the model keeps that branch, so that the code
    behind the test can be followed.  The free store of standard C++ does
    not take it: a failed allocation throws [std::bad_alloc] and the
    expression never yields the null pointer.  The executions of a program
    are therefore those of a free store that is [never_null] (below), and
    the returns of [ENOMEM] and the [SecureStringCapacityException] belong
    to the model alone. *)
Record Allocator : Type := {
  alloc_fails : nat -> bool;
  indeterminate : nat -> Char
}.

Definition new_Char (h : Allocator) (n : nat) : option (list Char) :=
  if alloc_fails h n then None else Some (map (indeterminate h) (seq 0 n)).

(** ** SecureString.h *)

(** The data members, in the order of the class.  [released] is a ghost
    member: the content of every array the object has passed to [delete[]],
    as it was at that moment, most recent first. *)
Record SecureString : Type := {
  m_num_Char : nat;
  m_num_Char_allocated : nat;
  m_data : option (list Char);
  m_ro : bool;
  m_encrypted : bool;
  released : list (list Char)
}.

Definition set_data (s : SecureString) (d : option (list Char)) : SecureString :=
  {| m_num_Char := m_num_Char s; m_num_Char_allocated := m_num_Char_allocated s;
     m_data := d; m_ro := m_ro s; m_encrypted := m_encrypted s;
     released := released s |}.

Definition set_num_Char (s : SecureString) (n : nat) : SecureString :=
  {| m_num_Char := n; m_num_Char_allocated := m_num_Char_allocated s;
     m_data := m_data s; m_ro := m_ro s; m_encrypted := m_encrypted s;
     released := released s |}.

Definition set_num_Char_allocated (s : SecureString) (n : nat) : SecureString :=
  {| m_num_Char := m_num_Char s; m_num_Char_allocated := n;
     m_data := m_data s; m_ro := m_ro s; m_encrypted := m_encrypted s;
     released := released s |}.

Definition set_ro (s : SecureString) (b : bool) : SecureString :=
  {| m_num_Char := m_num_Char s; m_num_Char_allocated := m_num_Char_allocated s;
     m_data := m_data s; m_ro := b; m_encrypted := m_encrypted s;
     released := released s |}.

Definition set_encrypted (s : SecureString) (b : bool) : SecureString :=
  {| m_num_Char := m_num_Char s; m_num_Char_allocated := m_num_Char_allocated s;
     m_data := m_data s; m_ro := m_ro s; m_encrypted := b;
     released := released s |}.

Definition log_release (s : SecureString) (d : list Char) : SecureString :=
  {| m_num_Char := m_num_Char s; m_num_Char_allocated := m_num_Char_allocated s;
     m_data := m_data s; m_ro := m_ro s; m_encrypted := m_encrypted s;
     released := d :: released s |}.

Section SecureString.

(** [sizeof(Char)], the borrowed encryptor and the free store. *)
Variable sizeof_Char : nat.
Variable m_encryptor : Encryptor.
Variable heap : Allocator.

Definition Char_to_bytes (num_Chars : nat) : nat := num_Chars * sizeof_Char.

Definition bytes_to_Chars (num_bytes : nat) : nat := num_bytes / sizeof_Char.

(** [SecureString(Encryptor&)] *)
Definition construct_empty : exception + SecureString :=
  if encryption_supported m_encryptor
  then inr {| m_num_Char := 0; m_num_Char_allocated := 0; m_data := None;
              m_ro := false; m_encrypted := false; released := [] |}
  else inl SecureStringEncryptorException.

(** [length()] and [size()] *)
Definition length (s : SecureString) : nat := m_num_Char s.

Definition size (s : SecureString) : nat := Char_to_bytes (m_num_Char s).

(** [make_ro()]: the statement of the source is [m_ro = false]. *)
Definition make_ro (s : SecureString) : SecureString := set_ro s false.

Definition is_ro (s : SecureString) : bool := m_ro s.

(** [protect_memory()] and [unprotect_memory()]: the flag changes only when
    the encryptor returns 0; the buffer is the encryptor's in either case. *)
Definition protect_memory (s : SecureString) : Z * SecureString :=
  match m_data s with
  | None => (0%Z, s)
  | Some data =>
      if m_encrypted s then (0%Z, s)
      else
        let '(ret, data') :=
          encrypt m_encryptor data (Char_to_bytes (m_num_Char_allocated s))
                  ACCESSIBLE_SAME_PROCESS in
        let s' := set_data s (Some data') in
        (ret, if Z.eqb ret 0 then set_encrypted s' true else s')
  end.

Definition unprotect_memory (s : SecureString) : Z * SecureString :=
  match m_data s with
  | None => (0%Z, s)
  | Some data =>
      if negb (m_encrypted s) then (0%Z, s)
      else
        let '(ret, data') :=
          decrypt m_encryptor data (Char_to_bytes (m_num_Char_allocated s))
                  ACCESSIBLE_SAME_PROCESS in
        let s' := set_data s (Some data') in
        (ret, if Z.eqb ret 0 then set_encrypted s' false else s')
  end.

(** The division by the block size is undefined for a block size of zero. *)
Definition encryptor_required_bytes (num_Char : nat) : outcome nat :=
  let required := block_size m_encryptor in
  if num_Char =? 0 then Returns required
  else if required =? 0 then Undefined
  else Returns (((Char_to_bytes num_Char + required - 1) / required) * required).

(** [discard_data()]: [std::fill(m_data, m_data + m_num_Char, 0)], then
    [delete[]]. *)
Definition discard_data (s : SecureString) : outcome SecureString :=
  match m_data s with
  | Some data =>
      let* zeroed := fill data (m_num_Char s) NUL in
      Returns (set_num_Char_allocated (set_data (log_release s zeroed) None) 0)
  | None => Returns s
  end.

(** [ensure_capacity(num_Char)]: the old array is copied up to [m_num_Char]
    and discarded. *)
Definition ensure_capacity (num_Char : nat) (s : SecureString)
  : outcome (Z * SecureString) :=
  let* required := encryptor_required_bytes num_Char in
  let exists_ := Char_to_bytes (m_num_Char_allocated s) in
  if required <=? exists_ then Returns (0%Z, s)
  else
    match new_Char heap (bytes_to_Chars required) with
    | None => Returns (ENOMEM, s)
    | Some fresh =>
        let* data :=
          match m_data s with
          | Some old => copy old (m_num_Char s) fresh
          | None => Returns fresh
          end in
        let* s1 := discard_data s in
        Returns (0%Z, set_num_Char_allocated (set_data s1 (Some data))
                                             (bytes_to_Chars required))
    end.

(** [protected_clear()] *)
Definition protected_clear (s : SecureString) : outcome (Z * SecureString) :=
  if m_ro s then Returns (EPERM, s)
  else
    let* s1 := discard_data s in
    Returns (0%Z, set_encrypted (set_num_Char_allocated (set_num_Char s1 0) 0) false).

(** Writing through [m_data]: undefined when it is the null pointer. *)
Definition with_data (s : SecureString) (f : list Char -> outcome (list Char))
  : outcome SecureString :=
  match m_data s with
  | Some data => let* data' := f data in Returns (set_data s (Some data'))
  | None => Undefined
  end.

(** [SecureString(Encryptor&, const Char* )].  [str] is the argument: the null
    pointer, or the array it points to. *)
Definition construct (str : option (list Char)) : outcome (exception + SecureString) :=
  match construct_empty with
  | inl e => Returns (inl e)
  | inr s0 =>
      match str with
      | None => Returns (inl SecureStringInitializationException)
      | Some chars =>
          let* n := strlen chars in
          let s1 := set_num_Char s0 n in
          let* (err, s2) := ensure_capacity (m_num_Char s1) s1 in
          if negb (Z.eqb err 0)
          then Returns (inl (SecureStringCapacityException (m_num_Char s2)))
          else
            let* s3 :=
              match m_data s2 with
              | Some data =>
                  let* data' := copy chars (m_num_Char s2) data in
                  Returns (set_data s2 (Some data'))
              | None => if m_num_Char s2 =? 0 then Returns s2 else Undefined
              end in
            let '(err', s4) := protect_memory s3 in
            if negb (Z.eqb err' 0)
            then Returns (inl (SecureStringEncryptionException err'))
            else Returns (inr s4)
      end
  end.

(** [SecureString(Encryptor&, const std::basic_string<Char>&)]: delegates
    with [str.c_str()]. *)
Definition construct_string (str : list Char) : outcome (exception + SecureString) :=
  construct (Some (str ++ [NUL])).

(** [SecureString(SecureString& other)] has no counterpart here: its body
    assigns [m_ro = other.m_ro], and [m_ro] is a [std::atomic<bool>], whose
    copy assignment is deleted.  The member cannot be instantiated, so no
    program copies a [SecureString]. *)

(** [~SecureString()]; the result is the object as the destructor leaves it. *)
Definition destroy (s : SecureString) : outcome SecureString :=
  let* (_, s1) := protected_clear (set_ro s false) in
  Returns s1.

(** [append(ch)] *)
Definition append (ch : Char) (s : SecureString) : outcome (Z * SecureString) :=
  if m_ro s then Returns (EPERM, s)
  else
    let '(err, s1) := unprotect_memory s in
    if negb (Z.eqb err 0) then Returns (err, s1)
    else
      let* (err2, s2) := ensure_capacity (m_num_Char s1 + 1) s1 in
      if negb (Z.eqb err2 0) then Returns (err2, s2)
      else
        let* s3 := with_data s2 (fun d => store d (m_num_Char s2) ch) in
        Returns (protect_memory (set_num_Char s3 (m_num_Char s3 + 1))).

(** [for (size_t i = m_num_Char ; i >= offset + 1 ; --i) m_data[i] = m_data[i - 1];]
    started at [i]. *)
Fixpoint insert_at_loop (offset i : nat) (data : list Char) : outcome (list Char) :=
  match i with
  | 0 => Returns data
  | S j =>
      if offset + 1 <=? i then
        let* v := load data j in
        let* data' := store data i v in
        insert_at_loop offset j data'
      else Returns data
  end.

(** [insert_at(offset, ch)]: the result of [ensure_capacity] is not tested,
    and [m_num_Char] is not assigned. *)
Definition insert_at (offset : nat) (ch : Char) (s : SecureString)
  : outcome (Z * SecureString) :=
  if m_ro s then Returns (EPERM, s)
  else if m_num_Char s <=? offset then Returns (E2BIG, s)
  else
    let '(err, s1) := unprotect_memory s in
    if negb (Z.eqb err 0) then Returns (err, s1)
    else
      let* (_, s2) := ensure_capacity (m_num_Char s1 + 1) s1 in
      let* s3 := with_data s2 (insert_at_loop offset (m_num_Char s2)) in
      let* s4 := with_data s3 (fun d => store d offset ch) in
      Returns (protect_memory s4).

(** [set_at(offset, ch)] *)
Definition set_at (offset : nat) (ch : Char) (s : SecureString)
  : outcome (Z * SecureString) :=
  if m_ro s then Returns (EPERM, s)
  else if m_num_Char s <=? offset then Returns (E2BIG, s)
  else
    let '(err, s1) := unprotect_memory s in
    if negb (Z.eqb err 0) then Returns (err, s1)
    else
      let* s2 := with_data s1 (fun d => store d offset ch) in
      Returns (protect_memory s2).

(** [for (size_t i = offset + 1 ; i < m_num_Char ; ++i) m_data[i - 1] = m_data[i];]
    started at [i], with [todo = m_num_Char - i] iterations left. *)
Fixpoint remove_at_loop (todo i : nat) (data : list Char) : outcome (list Char) :=
  match todo with
  | 0 => Returns data
  | S todo' =>
      let* v := load data i in
      let* data' := store data (i - 1) v in
      remove_at_loop todo' (S i) data'
  end.

(** [remove_at(offset)] *)
Definition remove_at (offset : nat) (s : SecureString) : outcome (Z * SecureString) :=
  if m_ro s then Returns (EPERM, s)
  else if m_num_Char s <=? offset then Returns (E2BIG, s)
  else
    let '(err, s1) := unprotect_memory s in
    if negb (Z.eqb err 0) then Returns (err, s1)
    else
      let* s2 := with_data s1
                   (remove_at_loop (m_num_Char s1 - (offset + 1)) (offset + 1)) in
      let s3 := set_num_Char s2 (m_num_Char s2 - 1) in
      let* s4 := with_data s3 (fun d => store d (m_num_Char s3) NUL) in
      Returns (protect_memory s4).

(** [clear()] *)
Definition clear (s : SecureString) : outcome (Z * SecureString) :=
  protected_clear s.

(** [to_string()].  [sizeof('\0')] is 1.  The temporary array [chr] is local
    to the call; the result is the string built from it. *)
Definition to_string (s : SecureString) : outcome (list Char * SecureString) :=
  let '(err, s1) := unprotect_memory s in
  if negb (Z.eqb err 0) then Returns ([], s1)
  else
    match new_Char heap (m_num_Char s1 + 1) with
    | None => Returns ([], snd (protect_memory s1))
    | Some chr =>
        let* chr1 := copy_from (m_data s1) (m_num_Char s1) chr in
        let s2 := snd (protect_memory s1) in
        let* chr2 := store chr1 (m_num_Char s2) NUL in
        Returns (c_str_prefix chr2, s2)
    end.

End SecureString.

(** ** Concrete collaborators

    An encryptor in the shape of [WinEncryptor]: the size check of the
    source, with an XOR mask standing for the system primitive.  With the
    mask [0] it is the encryptor that leaves the buffer as it is. *)

Definition EMSGSIZE : Z := 90.

Definition xor_encryptor (key : Z) (B : nat) : Encryptor :=
  {| encryption_supported := true;
     encrypt := fun buffer num_bytes _ =>
       if num_bytes mod B =? 0 then (0%Z, map (Z.lxor key) buffer)
       else (EMSGSIZE, buffer);
     decrypt := fun buffer num_bytes _ =>
       if num_bytes mod B =? 0 then (0%Z, map (Z.lxor key) buffer)
       else (EMSGSIZE, buffer);
     block_size := B |}.

Definition EOPNOTSUPP : Z := 95.

(** An encryptor whose primitive rejects some requests: [encrypt] fails with
    [EOPNOTSUPP] on a buffer that starts with ['z'], and masks like
    [xor_encryptor 90 4] otherwise. *)
Definition picky_encryptor : Encryptor :=
  {| encryption_supported := true;
     encrypt := fun buffer _ _ =>
       if Z.eqb (hd 0%Z buffer) 122 then (EOPNOTSUPP, buffer)
       else (0%Z, map (Z.lxor 90) buffer);
     decrypt := fun buffer _ _ => (0%Z, map (Z.lxor 90) buffer);
     block_size := 4 |}.

(** A free store that always delivers, with zero-filled arrays. *)
Definition zeroed_store : Allocator :=
  {| alloc_fails := fun _ => false; indeterminate := fun _ => 0%Z |}.

(** A free store that always delivers, with arrays whose units hold [0xAA]. *)
Definition stale_store : Allocator :=
  {| alloc_fails := fun _ => false; indeterminate := fun _ => 170%Z |}.

(** The object built from ["ab"] with [char] units, mask [0x5A] and blocks of
    4 bytes, on the zero-filled store. *)
Definition ab_buffer : SecureString :=
  {| m_num_Char := 2; m_num_Char_allocated := 4;
     m_data := Some [59; 56; 90; 90]%Z;
     m_ro := false; m_encrypted := true; released := [] |}.

(** ** The plain character sequence the edits are compared with *)

Inductive edit : Type :=
| Append (ch : Char)
| InsertAt (offset : nat) (ch : Char)
| RemoveAt (offset : nat).

(** The edit on a plain sequence, following the specification's words:
    [insert_at] shifts the elements from [offset] on one position right and
    places [ch] at [offset]; [remove_at] shifts the elements after [offset]
    one position left. *)
Definition edit_plain (e : edit) (l : list Char) : list Char :=
  match e with
  | Append ch => l ++ [ch]
  | InsertAt offset ch => firstn offset l ++ ch :: skipn offset l
  | RemoveAt offset => firstn offset l ++ skipn (S offset) l
  end.

(** The same edit on the object. *)
Definition edit_buffer (sizeof_Char : nat) (enc : Encryptor) (heap : Allocator)
           (e : edit) (s : SecureString) : outcome (Z * SecureString) :=
  match e with
  | Append ch => append sizeof_Char enc heap ch s
  | InsertAt offset ch => insert_at sizeof_Char enc heap offset ch s
  | RemoveAt offset => remove_at sizeof_Char enc offset s
  end.

(** A sequence of edits on the object: it stops at the first edit that
    reports an error. *)
Fixpoint run_edits (sizeof_Char : nat) (enc : Encryptor) (heap : Allocator)
         (es : list edit) (s : SecureString) : outcome (Z * SecureString) :=
  match es with
  | [] => Returns (0%Z, s)
  | ed :: rest =>
      let* (err, s') := edit_buffer sizeof_Char enc heap ed s in
      if Z.eqb err 0 then run_edits sizeof_Char enc heap rest s'
      else Returns (err, s')
  end.

(** The same sequence on a plain character sequence. *)
Fixpoint plain_edits (es : list edit) (l : list Char) : list Char :=
  match es with
  | [] => l
  | ed :: rest => plain_edits rest (edit_plain ed l)
  end.

(** The sequence consists of [append] and of [remove_at] at offsets below the
    current length. *)
Fixpoint appends_and_removals (es : list edit) (l : list Char) : Prop :=
  match es with
  | [] => True
  | Append ch :: rest => appends_and_removals rest (edit_plain (Append ch) l)
  | RemoveAt offset :: rest =>
      offset < List.length l
      /\ appends_and_removals rest (edit_plain (RemoveAt offset) l)
  | InsertAt _ _ :: _ => False
  end.

(** ** Properties of the object at rest *)


(** The units of the array past the logical length. *)
Definition padding (s : SecureString) : list Char :=
  match m_data s with
  | Some data => skipn (m_num_Char s) data
  | None => []
  end.

Definition all_NUL (l : list Char) : Prop := Forall (fun c => c = NUL) l.

(** The free store of standard C++: [new Char[n]] hands out an array or does
    not return at all; it never yields the null pointer. *)
Definition never_null (h : Allocator) : Prop :=
  forall n, alloc_fails h n = false.

(** A conforming capability for units of [sz] bytes: it reports itself as
    supported, its block size is positive and commensurable with the unit
    size (one of the two is a multiple of the other, so that a whole number
    of blocks is cut into whole units that fill whole blocks again), and on
    every buffer whose byte length is a multiple of the block size [encrypt]
    succeeds, keeps the number of units, and is undone by [decrypt]. *)
Definition conforming (sz : nat) (e : Encryptor) : Prop :=
  encryption_supported e = true
  /\ 0 < block_size e
  /\ (block_size e mod sz = 0 \/ sz mod block_size e = 0)
  /\ forall buffer num_bytes flags,
       num_bytes = List.length buffer * sz ->
       num_bytes mod block_size e = 0 ->
       exists c,
         encrypt e buffer num_bytes flags = (0%Z, c)
         /\ List.length c = List.length buffer
         /\ decrypt e c num_bytes flags = (0%Z, buffer).

(** [Rep sz e s live pad]: the object [s] is at rest and stands for the
    plaintext array [live ++ pad], of which [live] are the logical
    characters.  Either it has no array, or its array is the ciphertext of
    [live ++ pad]. *)
Inductive Rep (sz : nat) (e : Encryptor) (s : SecureString)
          (live pad : list Char) : Prop :=
| Rep_null :
    m_data s = None -> m_encrypted s = false ->
    m_num_Char s = 0 -> m_num_Char_allocated s = 0 ->
    live = [] -> pad = [] ->
    Rep sz e s live pad
| Rep_array (c : list Char) :
    m_data s = Some c -> m_encrypted s = true ->
    m_num_Char s = List.length live ->
    m_num_Char_allocated s = List.length (live ++ pad) ->
    (List.length (live ++ pad) * sz) mod block_size e = 0 ->
    encrypt e (live ++ pad) (List.length (live ++ pad) * sz)
            ACCESSIBLE_SAME_PROCESS = (0%Z, c) ->
    Rep sz e s live pad.

(** [Plain sz e s live pad]: the object as it is between [unprotect_memory]
    and [protect_memory]: no array, or the plaintext array [live ++ pad]. *)
Inductive Plain (sz : nat) (e : Encryptor) (s : SecureString)
          (live pad : list Char) : Prop :=
| Plain_null :
    m_data s = None -> m_encrypted s = false ->
    m_num_Char s = 0 -> m_num_Char_allocated s = 0 ->
    live = [] -> pad = [] ->
    Plain sz e s live pad
| Plain_array :
    m_data s = Some (live ++ pad) -> m_encrypted s = false ->
    m_num_Char s = List.length live ->
    m_num_Char_allocated s = List.length (live ++ pad) ->
    (List.length (live ++ pad) * sz) mod block_size e = 0 ->
    Plain sz e s live pad.

(** Every unit of [pad'] is a unit of [pad] or a unit the free store
    delivered. *)
Definition from_store (h : Allocator) (pad pad' : list Char) : Prop :=
  Forall (fun c => In c pad \/ exists i, c = indeterminate h i) pad'.

(** The free store delivers zero-filled arrays. *)
Definition zero_filling (h : Allocator) : Prop :=
  forall i, indeterminate h i = NUL.

Definition NUL_free (l : list Char) : Prop := Forall (fun c => c <> NUL) l.

(** The logical characters of an object whose array holds plaintext. *)
Definition logical_characters (s : SecureString) : list Char :=
  match m_data s with
  | Some data => firstn (m_num_Char s) data
  | None => []
  end.

(** The stored character sequence and the padding of an object at rest, read
    through [unprotect_memory]. *)
Definition stored_characters (sz : nat) (e : Encryptor) (s : SecureString)
  : list Char :=
  logical_characters (snd (unprotect_memory sz e s)).

Definition stored_padding (sz : nat) (e : Encryptor) (s : SecureString)
  : list Char :=
  padding (snd (unprotect_memory sz e s)).

(** The object after ["ab"], [append('\0')], [append('c')] (mask [0x5A],
    blocks of 4 bytes): four logical characters, the third of them NUL. *)
Definition ab0c_buffer : SecureString :=
  {| m_num_Char := 4; m_num_Char_allocated := 4;
     m_data := Some [59; 56; 90; 57]%Z;
     m_ro := false; m_encrypted := true; released := [] |}.

(** The object built from ["ab"] after a [set_at(0, 'z')] whose encryption
    was rejected: the array holds the plaintext ["zb"]. *)
Definition zb_plain_buffer : SecureString :=
  {| m_num_Char := 2; m_num_Char_allocated := 4;
     m_data := Some [122; 98; 0; 0]%Z;
     m_ro := false; m_encrypted := false; released := [] |}.

(** The characters of the example in the specification. *)
Definition hello_world : list Char :=
  [104; 101; 108; 108; 111; 32; 119; 111; 114; 108; 100]%Z.

(** The object a fresh construction without text yields. *)
Definition empty_buffer : SecureString :=
  {| m_num_Char := 0; m_num_Char_allocated := 0; m_data := None;
     m_ro := false; m_encrypted := false; released := [] |}.

(** The object built from ["ab"] with the encryptor that leaves the buffer
    as it is, on the store whose arrays hold [0xAA]. *)
Definition stale_ab_buffer : SecureString :=
  {| m_num_Char := 2; m_num_Char_allocated := 4;
     m_data := Some [97; 98; 170; 170]%Z;
     m_ro := false; m_encrypted := true; released := [] |}.

(** ** WinEncryptor.h

    The header rests on the platform for the two system primitives (each
    works in place on a buffer of a given byte size and returns an
    [NTSTATUS]), for [RTL_ENCRYPT_MEMORY_SIZE] and for [malloc].  They are
    parameters of the model.  [STATUS_SUCCESS] and
    [CRYPTPROTECTMEMORY_SAME_PROCESS] are 0; the flags are passed as their
    enumeration values. *)
Record Platform : Type := {
  SystemFunction040 : list Char -> nat -> Z -> Z * list Char;
  SystemFunction041 : list Char -> nat -> Z -> Z * list Char;
  RTL_ENCRYPT_MEMORY_SIZE : nat;
  malloc : nat -> option (list Char)
}.

Definition STATUS_SUCCESS : Z := 0.

Definition CRYPTPROTECTMEMORY_SAME_PROCESS : Z := 0.

(** [static_cast<ULONG>(flags)] *)
Definition flags_ULONG (flags : encryption_flags) : Z :=
  match flags with
  | ACCESSIBLE_SAME_PROCESS => 0
  | ACCESSIBLE_CROSS_PROCESS => 1
  | ACCESSIBLE_SAME_LOGON => 2
  end.

Section WinEncryptor.

Variable platform : Platform.

(** [WinEncryptor::block_size()] *)
Definition Win_block_size : nat := RTL_ENCRYPT_MEMORY_SIZE platform.

(** [WinEncryptor::encryption_supported()]: a trial encryption of a buffer
    obtained from [malloc]. *)
Definition Win_encryption_supported : bool :=
  match malloc platform Win_block_size with
  | None => false
  | Some ptr =>
      Z.eqb (fst (SystemFunction040 platform ptr Win_block_size
                                    CRYPTPROTECTMEMORY_SAME_PROCESS))
            STATUS_SUCCESS
  end.

(** [WinEncryptor::encrypt(buffer, num_bytes, flags)] *)
Definition Win_encrypt (buffer : list Char) (num_bytes : nat)
           (flags : encryption_flags) : Z * list Char :=
  if negb (num_bytes mod Win_block_size =? 0) then (EMSGSIZE, buffer)
  else
    let '(sts, buffer') :=
      SystemFunction040 platform buffer num_bytes (flags_ULONG flags) in
    if negb (Z.eqb sts STATUS_SUCCESS) then (EOPNOTSUPP, buffer')
    else (0%Z, buffer').

(** [WinEncryptor::decrypt(buffer, num_bytes, flags)] *)
Definition Win_decrypt (buffer : list Char) (num_bytes : nat)
           (flags : encryption_flags) : Z * list Char :=
  if negb (num_bytes mod Win_block_size =? 0) then (EMSGSIZE, buffer)
  else
    let '(sts, buffer') :=
      SystemFunction041 platform buffer num_bytes (flags_ULONG flags) in
    if negb (Z.eqb sts STATUS_SUCCESS) then (EOPNOTSUPP, buffer')
    else (0%Z, buffer').

(** The object, seen through the interface of [Encryptor]. *)
Definition WinEncryptor : Encryptor :=
  {| encryption_supported := Win_encryption_supported;
     encrypt := Win_encrypt;
     decrypt := Win_decrypt;
     block_size := Win_block_size |}.

End WinEncryptor.

(** A platform whose primitives mask every unit with [0x5A] and always
    succeed, with blocks of 8 bytes. *)
Definition masking_platform : Platform :=
  {| SystemFunction040 := fun buffer _ _ => (0%Z, map (Z.lxor 90) buffer);
     SystemFunction041 := fun buffer _ _ => (0%Z, map (Z.lxor 90) buffer);
     RTL_ENCRYPT_MEMORY_SIZE := 8;
     malloc := fun n => Some (repeat 0%Z n) |}.

(** The primitives of [p] serve units of [sz] bytes: [malloc] delivers, the
    block size is a positive multiple of the unit size, and on buffers of
    whole blocks [SystemFunction040] succeeds, keeps the number of units and
    is undone by [SystemFunction041]. *)
Definition platform_serves (sz : nat) (p : Platform) : Prop :=
  0 < RTL_ENCRYPT_MEMORY_SIZE p
  /\ RTL_ENCRYPT_MEMORY_SIZE p mod sz = 0
  /\ (forall n, malloc p n <> None)
  /\ forall buffer num_bytes flags,
       num_bytes mod RTL_ENCRYPT_MEMORY_SIZE p = 0 ->
       exists c,
         SystemFunction040 p buffer num_bytes flags = (STATUS_SUCCESS, c)
         /\ List.length c = List.length buffer
         /\ SystemFunction041 p c num_bytes flags = (STATUS_SUCCESS, buffer).

(** ** SafeStringBuffer.h *)

Record SafeStringBuffer : Type := { m_string : list Char }.

(** [SafeStringBuffer(const std::basic_string<Char>&)] *)
Definition SafeStringBuffer_construct (str : list Char) : SafeStringBuffer :=
  {| m_string := str |}.

(** [string()] and [operator()()] *)
Definition SafeStringBuffer_string (b : SafeStringBuffer) : list Char :=
  m_string b.

(** [~SafeStringBuffer()]: the characters of the wrapped string as the
    destructor leaves them. *)
Definition SafeStringBuffer_destroy (b : SafeStringBuffer) : outcome (list Char) :=
  fill (m_string b) (List.length (m_string b)) NUL.

(** [SecureString::to_safe_string()] *)
Definition to_safe_string (sizeof_Char : nat) (enc : Encryptor) (heap : Allocator)
           (s : SecureString) : outcome (SafeStringBuffer * SecureString) :=
  let* (str, s') := to_string sizeof_Char enc heap s in
  Returns (SafeStringBuffer_construct str, s').

(** ** Invariants of the capacity

    The logical length does not exceed the allocated length, the array has
    the allocated length, and the allocated bytes are whole blocks. *)
Definition capacity_invariants (sz : nat) (e : Encryptor) (s : SecureString)
  : Prop :=
  m_num_Char s <= m_num_Char_allocated s
  /\ Char_to_bytes sz (m_num_Char_allocated s) mod block_size e = 0
  /\ match m_data s with
     | Some data => List.length data = m_num_Char_allocated s
     | None => m_num_Char_allocated s = 0
     end.

(** ** The capacity computation in the arithmetic of [size_t]

    [size_t] is an unsigned type: sums, differences and products are taken
    modulo [SIZE_MAX + 1].  The two functions below are
    [encryptor_required_bytes] and [ensure_capacity] once more, with that
    arithmetic written out; the functions of the section above compute in
    the natural numbers, which is the same as long as the sizes fit. *)

Definition size_t_wrap (SIZE_MAX : nat) (x : nat) : nat := x mod (SIZE_MAX + 1).

Section SizeT.

Variable SIZE_MAX : nat.
Variable sizeof_Char : nat.
Variable m_encryptor : Encryptor.
Variable heap : Allocator.

(** [num_Chars * sizeof(Char)] *)
Definition Char_to_bytes_size_t (num_Chars : nat) : nat :=
  size_t_wrap SIZE_MAX (num_Chars * sizeof_Char).

(** [((Char_to_bytes(num_Char) + required - 1) / required) * required]; the
    difference [x - 1] of an unsigned [x] is [x + SIZE_MAX] modulo
    [SIZE_MAX + 1]. *)
Definition encryptor_required_bytes_size_t (num_Char : nat) : outcome nat :=
  let required := block_size m_encryptor in
  if num_Char =? 0 then Returns required
  else if required =? 0 then Undefined
  else
    let sum := size_t_wrap SIZE_MAX (Char_to_bytes_size_t num_Char + required) in
    let less_one := size_t_wrap SIZE_MAX (sum + SIZE_MAX) in
    Returns (size_t_wrap SIZE_MAX (less_one / required * required)).

Definition ensure_capacity_size_t (num_Char : nat) (s : SecureString)
  : outcome (Z * SecureString) :=
  let* required := encryptor_required_bytes_size_t num_Char in
  let exists_ := Char_to_bytes_size_t (m_num_Char_allocated s) in
  if required <=? exists_ then Returns (0%Z, s)
  else
    match new_Char heap (bytes_to_Chars sizeof_Char required) with
    | None => Returns (ENOMEM, s)
    | Some fresh =>
        let* data :=
          match m_data s with
          | Some old => copy old (m_num_Char s) fresh
          | None => Returns fresh
          end in
        let* s1 := discard_data s in
        Returns (0%Z, set_num_Char_allocated (set_data s1 (Some data))
                                             (bytes_to_Chars sizeof_Char required))
    end.

End SizeT.

(** The object built from ["ab"], with the read-only flag set. *)
Definition ab_read_only_buffer : SecureString := set_ro ab_buffer true.

(** * Theorems *)

(** ** Sanity: the objects above are the ones construction yields, and the
    example of the specification (blocks of 16 bytes, ["hello world"], then
    [append('!')], then [remove_at(0)]) runs as written. *)

Example construct_ab :
  construct_string 1 (xor_encryptor 90 4) zeroed_store [97; 98]%Z
  = Returns (inr ab_buffer).
Proof. reflexivity. Qed.

Example construct_stale_ab :
  construct_string 1 (xor_encryptor 0 4) stale_store [97; 98]%Z
  = Returns (inr stale_ab_buffer).
Proof. reflexivity. Qed.

Example construct_empty_buffer :
  construct_empty (xor_encryptor 90 4) = inr empty_buffer.
Proof. reflexivity. Qed.

Example hello_world_example :
  exists s0 s1 s2 s3 s4,
    construct_string 1 (xor_encryptor 90 16) zeroed_store hello_world
    = Returns (inr s0)
    /\ length s0 = 11
    /\ append 1 (xor_encryptor 90 16) zeroed_store 33%Z s0 = Returns (0%Z, s1)
    /\ length s1 = 12
    /\ to_string 1 (xor_encryptor 90 16) zeroed_store s1
       = Returns (hello_world ++ [33%Z], s2)
    /\ remove_at 1 (xor_encryptor 90 16) 0 s2 = Returns (0%Z, s3)
    /\ to_string 1 (xor_encryptor 90 16) zeroed_store s3
       = Returns (tl hello_world ++ [33%Z], s4).
Proof.
  do 5 eexists.
  repeat (split; [ vm_compute; reflexivity | ]).
  vm_compute; reflexivity.
Qed.

(** ** The read-only flag *)

(** C1 (defect of the code).  [make_ro] stores [false] in [m_ro], whatever
    the flag was: after it the object reports itself as modifiable, and on
    the object built from ["ab"] a following [append('c')] returns 0 and
    takes the length from 2 to 3, where the claim asks for the read-only
    error and an unchanged length. *)
Theorem make_ro_leaves_buffer_writable :
  (forall s, is_ro (make_ro s) = false)
  /\ length (make_ro ab_buffer) = 2
  /\ append 1 (xor_encryptor 90 4) zeroed_store 99%Z (make_ro ab_buffer)
     = Returns (0%Z,
                {| m_num_Char := 3; m_num_Char_allocated := 4;
                   m_data := Some [59; 56; 57; 90]%Z;
                   m_ro := false; m_encrypted := true; released := [] |}).
Proof.
  split; [ intros s; reflexivity | split; reflexivity ].
Qed.

(** Only a flag that is already set makes the mutating calls fail. *)
Lemma read_only_rejects_mutation sz e h (s : SecureString) ch offset :
  m_ro s = true ->
  append sz e h ch s = Returns (EPERM, s)
  /\ insert_at sz e h offset ch s = Returns (EPERM, s)
  /\ set_at sz e offset ch s = Returns (EPERM, s)
  /\ remove_at sz e offset s = Returns (EPERM, s)
  /\ clear s = Returns (EPERM, s).
Proof.
  intros Hro.
  unfold append, insert_at, set_at, remove_at, clear, protected_clear.
  rewrite Hro. repeat split.
Qed.

(** ** Zeroization on release *)

(** What [discard_data] hands to [delete[]]: the first [m_num_Char] units
    are zero, the units after them are as they were. *)
Lemma discard_data_released (s : SecureString) data :
  m_data s = Some data ->
  m_num_Char s <= List.length data ->
  discard_data s
  = Returns (set_num_Char_allocated
               (set_data (log_release s (repeat NUL (m_num_Char s)
                                           ++ skipn (m_num_Char s) data))
                         None) 0).
Proof.
  intros Hd Hn. unfold discard_data, fill. rewrite Hd.
  apply Nat.leb_le in Hn. rewrite Hn. reflexivity.
Qed.

(** [clear] on a modifiable object that owns an array: the array is released
    with its units past the logical length untouched. *)
Lemma clear_released (s : SecureString) data :
  m_ro s = false ->
  m_data s = Some data ->
  m_num_Char s <= List.length data ->
  exists s',
    clear s = Returns (0%Z, s')
    /\ released s'
       = (repeat NUL (m_num_Char s) ++ skipn (m_num_Char s) data) :: released s.
Proof.
  intros Hro Hd Hn. unfold clear, protected_clear.
  rewrite Hro, (discard_data_released s data Hd Hn). cbn [bind].
  eexists. split; reflexivity.
Qed.

(** C2 (defect of the code).  [discard_data] fills [m_data, m_data +
    m_num_Char) only.  On the object built from ["ab"] the array has 4 units,
    2 of them logical; [clear], and the destructor (here of the object with
    the read-only flag set), release it as [0; 0; 90; 90]: the two padding
    units are not overwritten. *)
Theorem clear_releases_padding_unzeroed :
  (exists s', clear ab_buffer = Returns (0%Z, s')
              /\ released s' = [[0; 0; 90; 90]%Z])
  /\ (exists s', destroy (set_ro ab_buffer true) = Returns s'
                 /\ released s' = [[0; 0; 90; 90]%Z])
  /\ ~ all_NUL [0; 0; 90; 90]%Z.
Proof.
  split; [ eexists; split; reflexivity | ].
  split; [ eexists; split; reflexivity | ].
  intros H. unfold all_NUL in H. rewrite Forall_forall in H.
  specialize (H 90%Z). cbn in H. discriminate H. tauto.
Qed.

(** ** Insertion *)

(** C4 (defect of the code).  [insert_at] rejects every offset that is not
    below the length: on a modifiable object [insert_at(length(), ch)]
    returns [E2BIG] and changes nothing, where the claim asks for an append.
    Offsets above the length are rejected as the claim says. *)
Theorem insert_at_length_is_rejected sz e h (s : SecureString) ch k :
  insert_at sz e h (length s) ch s
  = Returns ((if m_ro s then EPERM else E2BIG), s)
  /\ insert_at sz e h (length s + S k) ch s
     = Returns ((if m_ro s then EPERM else E2BIG), s).
Proof.
  unfold insert_at, length. destruct (m_ro s); [ split; reflexivity | ].
  rewrite Nat.leb_refl.
  replace (m_num_Char s <=? m_num_Char s + S k) with true
    by (symmetry; apply Nat.leb_le; lia).
  split; reflexivity.
Qed.

(** ** Which members the internal steps touch *)

Ltac inv H := inversion H; subst; clear H.

(** One step of case analysis on the outermost construct of the code in
    hypothesis [H : code = result]. *)
Ltac code_step H :=
  let E := fresh "E" in
  match type of H with
  | (if ?b then _ else _) = _ => destruct b eqn:E
  | (let '(_, _) := ?p in _) = _ => destruct p eqn:E
  | bind ?m _ = _ =>
      destruct m as [ ? | ] eqn:E; cbn [bind] in H; [ | discriminate H ]
  | match ?o with Some _ => _ | None => _ end = _ => destruct o eqn:E
  | match ?o with inl _ => _ | inr _ => _ end = _ => destruct o eqn:E
  end.

Lemma unprotect_memory_members sz e (s : SecureString) :
  m_num_Char (snd (unprotect_memory sz e s)) = m_num_Char s
  /\ m_num_Char_allocated (snd (unprotect_memory sz e s)) = m_num_Char_allocated s
  /\ m_ro (snd (unprotect_memory sz e s)) = m_ro s
  /\ released (snd (unprotect_memory sz e s)) = released s.
Proof.
  unfold unprotect_memory.
  destruct (m_data s); [ | auto ].
  destruct (m_encrypted s); cbn [negb]; [ | auto ].
  destruct (decrypt e l _ _) as [ret data'].
  destruct (Z.eqb ret 0); cbn; auto.
Qed.

Lemma protect_memory_members sz e (s : SecureString) :
  m_num_Char (snd (protect_memory sz e s)) = m_num_Char s
  /\ m_num_Char_allocated (snd (protect_memory sz e s)) = m_num_Char_allocated s
  /\ m_ro (snd (protect_memory sz e s)) = m_ro s
  /\ released (snd (protect_memory sz e s)) = released s.
Proof.
  unfold protect_memory.
  destruct (m_data s); [ | auto ].
  destruct (m_encrypted s); [ auto | ].
  destruct (encrypt e l _ _) as [ret data'].
  destruct (Z.eqb ret 0); cbn; auto.
Qed.

Lemma discard_data_members (s s' : SecureString) :
  discard_data s = Returns s' ->
  m_num_Char s' = m_num_Char s /\ m_ro s' = m_ro s
  /\ m_encrypted s' = m_encrypted s /\ m_data s' = None.
Proof.
  unfold discard_data. intros H.
  destruct (m_data s) eqn:Hd.
  - code_step H. inv H. cbn. auto.
  - inv H. auto.
Qed.

Lemma ensure_capacity_members sz e h n (s s' : SecureString) r :
  ensure_capacity sz e h n s = Returns (r, s') ->
  m_num_Char s' = m_num_Char s /\ m_ro s' = m_ro s
  /\ m_encrypted s' = m_encrypted s.
Proof.
  unfold ensure_capacity. intros H.
  code_step H. code_step H; [ inv H; auto | ].
  code_step H; [ | inv H; auto ].
  code_step H. code_step H. inv H. cbn.
  apply discard_data_members in E3. tauto.
Qed.

Lemma with_data_members (s s' : SecureString) f :
  with_data s f = Returns s' ->
  m_num_Char s' = m_num_Char s /\ m_ro s' = m_ro s
  /\ m_encrypted s' = m_encrypted s
  /\ m_num_Char_allocated s' = m_num_Char_allocated s
  /\ m_data s' <> None.
Proof.
  unfold with_data. intros H.
  destruct (m_data s); [ | discriminate H ].
  code_step H. inv H. cbn. repeat split; discriminate.
Qed.

(** [insert_at] never moves the logical length. *)
Lemma insert_at_keeps_length sz e h offset ch (s s' : SecureString) r :
  insert_at sz e h offset ch s = Returns (r, s') ->
  length s' = length s.
Proof.
  unfold insert_at, length. intros H.
  code_step H; [ inv H; reflexivity | ].
  code_step H; [ inv H; reflexivity | ].
  pose proof (unprotect_memory_members sz e s) as (Hn & _).
  code_step H. cbn [snd] in Hn.
  code_step H; [ inv H; exact Hn | ].
  code_step H. destruct a as [r2 s2]. cbn in H.
  code_step H. code_step H. injection H as Hprot.
  apply ensure_capacity_members in E3. apply with_data_members in E4, E5.
  pose proof (protect_memory_members sz e a0) as (Hp & _).
  rewrite Hprot in Hp. cbn [snd] in Hp. lia.
Qed.

(** C5 (defect of the code).  [insert_at] shifts and writes but does not
    increment [m_num_Char].  On the object built from ["ab"],
    [insert_at(0, 'x')] returns 0; the plain sequence becomes ["xab"] of
    length 3, while the object reports length 2 and [to_string] yields
    ["xa"]. *)
Theorem insert_at_drops_last_character :
  let e := InsertAt 0 120%Z in
  exists s' s'',
    edit_buffer 1 (xor_encryptor 90 4) zeroed_store e ab_buffer
    = Returns (0%Z, s')
    /\ edit_plain e [97; 98]%Z = [120; 97; 98]%Z
    /\ length s' = 2
    /\ to_string 1 (xor_encryptor 90 4) zeroed_store s'
       = Returns ([120; 97]%Z, s'').
Proof.
  do 2 eexists.
  repeat (split; [ vm_compute; reflexivity | ]).
  vm_compute; reflexivity.
Qed.

(** ** Construction *)

(** C7 (defect of the code).  The constructor throws
    [SecureStringInitializationException] for the null pointer only.  For the
    empty string it allocates one block, encrypts it and returns an object of
    length 0, where the claim (and the documentation of the exception) asks
    for the exception. *)
Theorem construct_accepts_empty_text :
  construct 1 (xor_encryptor 90 4) zeroed_store None
  = Returns (inl SecureStringInitializationException)
  /\ construct 1 (xor_encryptor 90 4) zeroed_store (Some [NUL])
     = Returns (inr {| m_num_Char := 0; m_num_Char_allocated := 4;
                       m_data := Some [90; 90; 90; 90]%Z;
                       m_ro := false; m_encrypted := true; released := [] |})
  /\ construct_string 1 (xor_encryptor 90 4) zeroed_store []
     = construct 1 (xor_encryptor 90 4) zeroed_store (Some [NUL]).
Proof.
  repeat split.
Qed.

(** ** Ciphertext at rest *)



Ltac early_return H :=
  code_step H; [ inv H; discriminate | ].

Ltac decrypt_failed H E :=
  code_step H;
  [ inv H;
    match goal with
    | E' : negb (Z.eqb 0 0) = true |- _ => discriminate E'
    end
  | ].










(** ** Arithmetic of the capacity computation *)

Lemma round_up_ge a B : 0 < B -> a <= (a + B - 1) / B * B.
Proof.
  intros HB. pose proof (Nat.div_mod_eq (a + B - 1) B) as H.
  pose proof (Nat.mod_upper_bound (a + B - 1) B ltac:(lia)) as H1. nia.
Qed.

Lemma round_up_aligned a B : ((a + B - 1) / B * B) mod B = 0.
Proof. apply Nat.Div0.mod_mul. Qed.

Lemma round_up_least a B m :
  0 < B -> m mod B = 0 -> a <= m -> (a + B - 1) / B * B <= m.
Proof.
  intros HB Hm Ha.
  apply Nat.Div0.div_exact in Hm.
  assert ((a + B - 1) / B < S (m / B)).
  { apply Nat.Div0.div_lt_upper_bound. nia. }
  nia.
Qed.

Lemma aligned_units sz B x :
  0 < sz -> B mod sz = 0 -> x mod B = 0 -> x / sz * sz = x.
Proof.
  intros Hsz HB Hx.
  apply Nat.Div0.div_exact in HB. apply Nat.Div0.div_exact in Hx.
  assert (H : x = (B / sz * (x / B)) * sz) by nia.
  rewrite H at 1. rewrite Nat.div_mul by lia. nia.
Qed.

(** The units cut from [x] bytes, a whole number of blocks that holds [n]
    units, fill whole blocks and are at least [n]. *)
Lemma units_of_blocks sz B x n :
  0 < sz -> 0 < B -> B mod sz = 0 \/ sz mod B = 0 ->
  x mod B = 0 -> n * sz <= x ->
  (x / sz * sz) mod B = 0 /\ n <= x / sz.
Proof.
  intros Hsz HB Hdiv Hx Hn.
  split; [ | apply Nat.div_le_lower_bound; lia ].
  destruct Hdiv as [Hdiv | Hdiv].
  - rewrite (aligned_units sz B x Hsz Hdiv Hx). exact Hx.
  - apply Nat.Div0.div_exact in Hdiv.
    rewrite Hdiv.
    replace (x / (B * (sz / B)) * (B * (sz / B)))
      with (x / (B * (sz / B)) * (sz / B) * B) by lia.
    apply Nat.Div0.mod_mul.
Qed.

(** ** Arrays *)

Ltac list_length :=
  repeat first [ rewrite length_app | progress cbn [List.length] ].

Ltac list_length_in H :=
  repeat first [ rewrite length_app in H | progress cbn [List.length] in H ].

Lemma store_middle (a b : list Char) x v :
  store (a ++ x :: b) (List.length a) v = Returns (a ++ v :: b).
Proof.
  unfold store. rewrite length_app. cbn [List.length].
  replace (List.length a <? List.length a + S (List.length b)) with true
    by (symmetry; apply Nat.ltb_lt; lia).
  rewrite firstn_app, Nat.sub_diag, firstn_all. cbn [firstn].
  rewrite app_nil_r.
  replace (S (List.length a)) with (List.length a + 1) by lia.
  rewrite skipn_app, skipn_all2 by lia.
  replace (List.length a + 1 - List.length a) with 1 by lia.
  reflexivity.
Qed.

Lemma load_middle (a b : list Char) x :
  load (a ++ x :: b) (List.length a) = Returns x.
Proof.
  unfold load. rewrite nth_error_app2 by lia.
  rewrite Nat.sub_diag. reflexivity.
Qed.

Lemma length_fresh h k :
  List.length (map (indeterminate h) (seq 0 k)) = k.
Proof. rewrite length_map. apply length_seq. Qed.

Lemma in_skipn_in (l : list Char) n c : In c (skipn n l) -> In c l.
Proof.
  intros H. rewrite <- (firstn_skipn n l). apply in_or_app. right. exact H.
Qed.

Lemma fresh_from_store h pad k n :
  from_store h pad (skipn n (map (indeterminate h) (seq 0 k))).
Proof.
  unfold from_store. apply Forall_forall. intros c Hc.
  right. apply in_skipn_in in Hc. apply in_map_iff in Hc.
  destruct Hc as (i & Hi & _). eauto.
Qed.

Lemma from_store_tail h pad z pad' :
  from_store h pad (z :: pad') -> from_store h pad pad'.
Proof. unfold from_store. intros H. inversion H; assumption. Qed.

Lemma from_store_refl h pad : from_store h pad pad.
Proof. unfold from_store. apply Forall_forall. auto. Qed.

Lemma from_store_all_NUL h pad pad' :
  zero_filling h -> all_NUL pad -> from_store h pad pad' -> all_NUL pad'.
Proof.
  unfold zero_filling, all_NUL, from_store. intros Hz Hp Hf.
  rewrite Forall_forall in *. intros c Hc.
  destruct (Hf c Hc) as [Hin | (i & Hi)]; [ auto | ].
  subst. apply Hz.
Qed.

Lemma split_at (l : list Char) offset :
  offset < List.length l ->
  exists a x b,
    l = a ++ x :: b /\ List.length a = offset
    /\ firstn offset l = a /\ skipn (S offset) l = b.
Proof.
  intros Hlt.
  destruct (skipn offset l) as [ | x b ] eqn:Hs.
  - apply (f_equal (@List.length Char)) in Hs.
    rewrite length_skipn in Hs. cbn in Hs. lia.
  - exists (firstn offset l), x, b.
    assert (Hl : l = firstn offset l ++ x :: b).
    { rewrite <- Hs. symmetry. apply firstn_skipn. }
    assert (Hlen : List.length (firstn offset l) = offset).
    { rewrite length_firstn. lia. }
    repeat split; auto.
    rewrite Hl at 1.
    replace (S offset) with (List.length (firstn offset l) + 1) by lia.
    rewrite skipn_app, skipn_all2 by lia.
    replace (List.length (firstn offset l) + 1
             - List.length (firstn offset l)) with 1 by lia.
    reflexivity.
Qed.

(** The shifting loop of [remove_at]: the units after the removed one move
    one position left; the last logical unit keeps some value [w]. *)
Lemma remove_at_loop_shifts (b a rest : list Char) x :
  exists w,
    remove_at_loop (List.length b) (List.length a + 1) (a ++ x :: b ++ rest)
    = Returns (a ++ b ++ w :: rest).
Proof.
  revert a x. induction b as [ | y b' IH ]; intros a x.
  - exists x. reflexivity.
  - destruct (IH (a ++ [y]) y) as (w & Hw). exists w.
    cbn [List.length remove_at_loop].
    replace (a ++ x :: (y :: b') ++ rest)
      with ((a ++ [x]) ++ y :: b' ++ rest)
      by (rewrite <- app_assoc; reflexivity).
    replace (List.length a + 1) with (List.length (a ++ [x]))
      by (rewrite length_app; reflexivity).
    rewrite load_middle. cbn [bind].
    replace (List.length (a ++ [x]) - 1) with (List.length a)
      by (rewrite length_app; cbn; lia).
    rewrite <- app_assoc. cbn [app]. rewrite store_middle. cbn [bind].
    replace (a ++ y :: y :: b' ++ rest) with ((a ++ [y]) ++ y :: b' ++ rest)
      by (rewrite <- app_assoc; reflexivity).
    replace (S (List.length (a ++ [x]))) with (List.length (a ++ [y]) + 1)
      by (rewrite !length_app; cbn; lia).
    rewrite Hw. rewrite <- app_assoc. reflexivity.
Qed.

(** The shifting loop of [insert_at]: the units from [offset] on move one
    position right, over the unit [z] that follows the logical ones. *)
Lemma insert_at_loop_shifts (b a rest : list Char) z :
  insert_at_loop (List.length a) (List.length a + List.length b)
                 (a ++ b ++ z :: rest)
  = Returns (a ++ hd z b :: b ++ rest).
Proof.
  revert z rest. induction b as [ | y b' IH ] using rev_ind; intros z rest.
  - cbn [List.length app hd]. rewrite Nat.add_0_r.
    destruct (List.length a) as [ | j ] eqn:Hj; cbn [insert_at_loop];
      [ reflexivity | ].
    replace (S j + 1 <=? S j) with false
      by (symmetry; apply Nat.leb_gt; lia).
    reflexivity.
  - rewrite length_app. cbn [List.length].
    replace (List.length a + (List.length b' + 1))
      with (S (List.length a + List.length b')) by lia.
    cbn [insert_at_loop].
    replace (List.length a + 1 <=? S (List.length a + List.length b'))
      with true by (symmetry; apply Nat.leb_le; lia).
    replace (a ++ (b' ++ [y]) ++ z :: rest)
      with ((a ++ b') ++ y :: z :: rest)
      by (rewrite <- !app_assoc; reflexivity).
    replace (List.length a + List.length b')
      with (List.length (a ++ b')) by apply length_app.
    rewrite load_middle. cbn [bind].
    replace ((a ++ b') ++ y :: z :: rest)
      with (((a ++ b') ++ [y]) ++ z :: rest)
      by (rewrite <- !app_assoc; reflexivity).
    replace (S (List.length (a ++ b')))
      with (List.length ((a ++ b') ++ [y]))
      by (rewrite (length_app (a ++ b')); cbn; lia).
    rewrite store_middle. cbn [bind].
    replace (((a ++ b') ++ [y]) ++ y :: rest)
      with (a ++ b' ++ y :: y :: rest)
      by (rewrite <- !app_assoc; reflexivity).
    rewrite length_app, IH.
    rewrite <- !app_assoc. cbn [app].
    destruct b'; reflexivity.
Qed.

(** ** NUL-terminated arrays *)

Lemma c_str_prefix_terminated l : c_str_prefix (l ++ [NUL]) = c_str_prefix l.
Proof.
  induction l as [ | c r IH ]; [ reflexivity | ].
  cbn. destruct (Z.eqb c NUL); [ reflexivity | ]. rewrite IH. reflexivity.
Qed.

Lemma c_str_prefix_stops (a b : list Char) :
  NUL_free a -> c_str_prefix (a ++ NUL :: b) = a.
Proof.
  unfold NUL_free. induction a as [ | c r IH ]; intros H; [ reflexivity | ].
  inversion H as [ | ? ? Hc Hr ]; subst. cbn.
  destruct (Z.eqb c NUL) eqn:E; [ apply Z.eqb_eq in E; contradiction | ].
  rewrite IH by assumption. reflexivity.
Qed.

Lemma c_str_prefix_NUL_free l : NUL_free l -> c_str_prefix l = l.
Proof.
  intros H. rewrite <- (c_str_prefix_terminated l).
  apply c_str_prefix_stops. exact H.
Qed.

Lemma strlen_terminated (a b : list Char) :
  NUL_free a -> strlen (a ++ NUL :: b) = Returns (List.length a).
Proof.
  unfold NUL_free. induction a as [ | c r IH ]; intros H; [ reflexivity | ].
  inversion H as [ | ? ? Hc Hr ]; subst. cbn.
  destruct (Z.eqb c NUL) eqn:E; [ apply Z.eqb_eq in E; contradiction | ].
  rewrite IH by assumption. reflexivity.
Qed.

(** ** Extraction *)

(** [to_string] once [unprotect_memory] has succeeded and the temporary
    array is delivered: the logical characters are copied, the object is
    handed to [protect_memory], and the string is what the copy holds before
    its first NUL.  No assumption on the capability is used. *)
Lemma to_string_copies sz e h (s s1 : SecureString) :
  unprotect_memory sz e s = (0%Z, s1) ->
  alloc_fails h (m_num_Char s + 1) = false ->
  match m_data s1 with
  | Some d => m_num_Char s <= List.length d
  | None => m_num_Char s = 0
  end ->
  to_string sz e h s
  = Returns (c_str_prefix (logical_characters s1),
             snd (protect_memory sz e s1)).
Proof.
  intros Hu Hnew Hfit.
  pose proof (unprotect_memory_members sz e s) as (Hn1 & _).
  rewrite Hu in Hn1. cbn [snd] in Hn1.
  pose proof (protect_memory_members sz e s1) as (Hn2 & _).
  unfold to_string, logical_characters. rewrite Hu. cbn [negb Z.eqb].
  unfold new_Char. rewrite Hn1, Hnew, Hn2, Hn1.
  set (n := m_num_Char s) in *.
  assert (Hlast : exists g, skipn n (map (indeterminate h) (seq 0 (n + 1))) = [g]).
  { destruct (skipn n (map (indeterminate h) (seq 0 (n + 1))))
      as [ | g [ | g' r ] ] eqn:Hs;
      apply (f_equal (@List.length Char)) in Hs;
      rewrite length_skipn, length_fresh in Hs; cbn in Hs;
      [ lia | eauto | lia ]. }
  destruct Hlast as (g & Hg).
  destruct (m_data s1) as [ d | ] eqn:Hd; unfold copy_from, copy.
  - rewrite length_fresh.
    replace (n <=? List.length d) with true
      by (symmetry; apply Nat.leb_le; lia).
    replace (n <=? n + 1) with true by (symmetry; apply Nat.leb_le; lia).
    cbn [andb bind]. rewrite Hg.
    pose proof (store_middle (firstn n d) [] g NUL) as Hst.
    rewrite length_firstn, Nat.min_l in Hst by lia.
    rewrite Hst. cbn [bind].
    rewrite c_str_prefix_terminated. reflexivity.
  - rewrite Hfit. cbn [Nat.eqb bind]. reflexivity.
Qed.

(** ** The object at rest and in the clear, under a conforming capability *)

Section Conforming.

Variable sz : nat.
Variable e : Encryptor.
Variable h : Allocator.
Hypothesis sz_pos : 0 < sz.
Hypothesis e_conforming : conforming sz e.
Hypothesis h_never_null : never_null h.

Lemma conforming_block_pos : 0 < block_size e.
Proof. destruct e_conforming as (_ & H & _). exact H. Qed.

Lemma conforming_round_trip buffer :
  (List.length buffer * sz) mod block_size e = 0 ->
  exists c,
    encrypt e buffer (List.length buffer * sz) ACCESSIBLE_SAME_PROCESS = (0%Z, c)
    /\ decrypt e c (List.length buffer * sz) ACCESSIBLE_SAME_PROCESS
       = (0%Z, buffer).
Proof.
  intros Ha. destruct e_conforming as (_ & _ & _ & H).
  destruct (H buffer _ ACCESSIBLE_SAME_PROCESS eq_refl Ha) as (c & Hc & _ & Hd).
  eauto.
Qed.

Lemma Rep_unprotect (s : SecureString) live pad :
  Rep sz e s live pad ->
  exists s1,
    unprotect_memory sz e s = (0%Z, s1)
    /\ Plain sz e s1 live pad
    /\ m_ro s1 = m_ro s /\ released s1 = released s.
Proof.
  intros [Hd He Hn Ha Hl Hp | c Hd He Hn Ha Hal Hc].
  - exists s. unfold unprotect_memory. rewrite Hd.
    repeat split. apply Plain_null; assumption.
  - destruct (conforming_round_trip _ Hal) as (c' & Hc' & Hdec).
    rewrite Hc in Hc'. inv Hc'.
    eexists. unfold unprotect_memory, Char_to_bytes.
    rewrite Hd, He, Ha, Hdec. cbn.
    repeat split. apply Plain_array; cbn; auto.
Qed.

Lemma Plain_protect (s : SecureString) live pad :
  Plain sz e s live pad ->
  exists s',
    protect_memory sz e s = (0%Z, s')
    /\ Rep sz e s' live pad
    /\ m_ro s' = m_ro s /\ released s' = released s.
Proof.
  intros [Hd He Hn Ha Hl Hp | Hd He Hn Ha Hal].
  - exists s. unfold protect_memory. rewrite Hd.
    repeat split. apply Rep_null; assumption.
  - destruct (conforming_round_trip _ Hal) as (c & Hc & Hdec).
    eexists. unfold protect_memory, Char_to_bytes.
    rewrite Hd, He, Ha, Hc. cbn.
    repeat split. eapply Rep_array; cbn; eauto.
Qed.

(** The first allocation: an object without array gets a fresh array of
    whole blocks, large enough for [n] units. *)
Lemma ensure_capacity_first (s : SecureString) n :
  m_data s = None -> m_num_Char_allocated s = 0 ->
  exists k,
    ensure_capacity sz e h n s
    = Returns (0%Z, set_num_Char_allocated
                      (set_data s (Some (map (indeterminate h) (seq 0 k)))) k)
    /\ n <= k /\ (k * sz) mod block_size e = 0.
Proof.
  intros Hd Ha.
  pose proof conforming_block_pos as HB.
  destruct e_conforming as (_ & _ & Hdiv & _).
  assert (Hreq : exists req,
             encryptor_required_bytes sz e n = Returns req
             /\ req mod block_size e = 0 /\ 0 < req /\ n * sz <= req).
  { unfold encryptor_required_bytes, Char_to_bytes.
    destruct (n =? 0) eqn:En.
    - apply Nat.eqb_eq in En. subst. eexists. split; [ reflexivity | ].
      split; [ apply Nat.Div0.mod_same | ]. lia.
    - apply Nat.eqb_neq in En.
      replace (block_size e =? 0) with false
        by (symmetry; apply Nat.eqb_neq; lia).
      eexists. split; [ reflexivity | ].
      split; [ apply round_up_aligned | ].
      pose proof (round_up_ge (n * sz) _ HB). nia. }
  destruct Hreq as (req & Hreq & Hal & Hpos & Hge).
  destruct (units_of_blocks sz _ req n sz_pos HB Hdiv Hal Hge) as (Hk & Hkn).
  exists (req / sz).
  unfold ensure_capacity. rewrite Hreq. cbn [bind].
  unfold Char_to_bytes, bytes_to_Chars. rewrite Ha. cbn [Nat.mul].
  replace (req <=? 0) with false by (symmetry; apply Nat.leb_gt; lia).
  unfold new_Char. rewrite h_never_null, Hd. cbn [bind].
  unfold discard_data. rewrite Hd. cbn [bind].
  split; [ reflexivity | ].
  split; [ exact Hkn | exact Hk ].
Qed.

(** Room for one more unit: the array is kept when it has a free unit, and
    replaced by a larger one, into which the logical characters are copied,
    when it is full. *)
Lemma ensure_capacity_Plain (s : SecureString) live pad :
  Plain sz e s live pad ->
  exists s' pad',
    ensure_capacity sz e h (List.length live + 1) s = Returns (0%Z, s')
    /\ Plain sz e s' live pad'
    /\ m_data s' = Some (live ++ pad')
    /\ pad' <> []
    /\ from_store h pad pad'
    /\ m_ro s' = m_ro s
    /\ (released s' = released s
        \/ (pad = []
            /\ released s' = repeat NUL (List.length live) :: released s)).
Proof.
  pose proof conforming_block_pos as HB.
  intros [Hd He Hn Ha Hl Hp | Hd He Hn Ha Hal].
  - subst live pad.
    destruct (ensure_capacity_first s (List.length (@nil Char) + 1) Hd Ha)
      as (k & Hens & Hk1 & Hk3).
    do 2 eexists. split; [ exact Hens | ].
    cbn [app]. split; [ | split; [ reflexivity | ] ].
    + apply Plain_array; cbn [app]; cbn; auto.
      * rewrite length_fresh. reflexivity.
      * rewrite length_fresh. assumption.
    + split; [ | split; [ | split; [ reflexivity | left; reflexivity ] ] ].
      * intros Hnil. apply (f_equal (@List.length Char)) in Hnil.
        rewrite length_fresh in Hnil. cbn in Hnil. lia.
      * apply (fresh_from_store h [] k 0).
  - destruct e_conforming as (_ & _ & Hdiv & _).
    rewrite length_app in Ha, Hal.
    set (n := List.length live) in *.
    set (req := ((n + 1) * sz + block_size e - 1) / block_size e * block_size e).
    assert (Hreq : encryptor_required_bytes sz e (n + 1) = Returns req).
    { unfold encryptor_required_bytes, Char_to_bytes.
      replace (n + 1 =? 0) with false by (symmetry; apply Nat.eqb_neq; lia).
      replace (block_size e =? 0) with false
        by (symmetry; apply Nat.eqb_neq; lia).
      reflexivity. }
    pose proof (round_up_ge ((n + 1) * sz) _ HB) as Hge. fold req in Hge.
    pose proof (round_up_aligned ((n + 1) * sz) (block_size e)) as Hral.
    fold req in Hral.
    unfold ensure_capacity. rewrite Hreq. cbn [bind]. unfold Char_to_bytes.
    rewrite Ha.
    destruct (req <=? (n + List.length pad) * sz) eqn:Efit.
    + (* the array has room *)
      apply Nat.leb_le in Efit.
      exists s, pad. split; [ reflexivity | ].
      split; [ apply Plain_array; auto; rewrite length_app; assumption | ].
      split; [ assumption | ].
      split; [ intros ->; cbn in Efit; nia | ].
      split; [ apply from_store_refl | ].
      split; [ reflexivity | left; reflexivity ].
    + (* the array is full *)
      apply Nat.leb_gt in Efit.
      assert (Hfull : pad = []).
      { destruct pad as [ | z pad0 ]; [ reflexivity | exfalso ].
        cbn [List.length] in *.
        pose proof (round_up_least ((n + 1) * sz) (block_size e)
                      ((n + S (List.length pad0)) * sz) HB Hal) as Hl.
        fold req in Hl. nia. }
      subst pad. cbn [List.length] in *. rewrite app_nil_r in Hd.
      destruct (units_of_blocks sz _ req (n + 1) sz_pos HB Hdiv Hral Hge)
        as (Hk & Hkn).
      unfold new_Char, bytes_to_Chars. rewrite h_never_null, Hd.
      set (k := req / sz) in *.
      unfold copy, discard_data, fill. rewrite Hd, Hn, length_fresh.
      fold n. rewrite Nat.leb_refl.
      replace (n <=? k) with true by (symmetry; apply Nat.leb_le; lia).
      cbn [andb bind]. replace (firstn n live) with live by (symmetry; apply firstn_all).
      do 2 eexists. split; [ reflexivity | ].
      split; [ | split; [ reflexivity | ] ].
      * apply Plain_array; cbn; auto;
          rewrite length_app, length_skipn, length_fresh;
          fold n; replace (n + (k - n)) with k by lia; auto.
      * split; [ | split; [ apply fresh_from_store | ] ].
        -- intros Hnil. apply (f_equal (@List.length Char)) in Hnil.
           rewrite length_skipn, length_fresh in Hnil. cbn in Hnil. lia.
        -- split; [ reflexivity | right; split; [ reflexivity | ] ].
           cbn. unfold n. rewrite skipn_all, app_nil_r. reflexivity.
Qed.

Lemma Plain_array_inv (s : SecureString) live pad d :
  Plain sz e s live pad -> m_data s = Some d ->
  d = live ++ pad /\ m_encrypted s = false
  /\ m_num_Char s = List.length live
  /\ m_num_Char_allocated s = List.length (live ++ pad)
  /\ (List.length (live ++ pad) * sz) mod block_size e = 0.
Proof.
  intros [Hd He Hn Ha Hl Hp | Hd He Hn Ha Hal] Hs; [ congruence | ].
  rewrite Hd in Hs. inv Hs. auto.
Qed.

Lemma Plain_num_Char (s : SecureString) live pad :
  Plain sz e s live pad -> m_num_Char s = List.length live.
Proof.
  intros [Hd He Hn Ha Hl Hp | Hd He Hn Ha Hal]; [ subst; exact Hn | exact Hn ].
Qed.

Lemma Rep_num_Char (s : SecureString) live pad :
  Rep sz e s live pad -> m_num_Char s = List.length live.
Proof.
  intros [Hd He Hn Ha Hl Hp | c Hd He Hn Ha Hal Hc];
    [ subst; exact Hn | exact Hn ].
Qed.

(** [append] on an object at rest. *)
Lemma append_Rep (s : SecureString) live pad ch :
  Rep sz e s live pad -> m_ro s = false ->
  exists s' pad',
    append sz e h ch s = Returns (0%Z, s')
    /\ Rep sz e s' (live ++ [ch]) pad'
    /\ m_ro s' = false
    /\ from_store h pad pad'.
Proof.
  intros HR Hro.
  destruct (Rep_unprotect _ _ _ HR) as (s1 & Hu & Hpl & Hro1 & _).
  destruct (ensure_capacity_Plain _ _ _ Hpl)
    as (s2 & pad2 & Hens & Hpl2 & Hd2 & Hne & Hfs & Hro2 & _).
  destruct pad2 as [ | z pad' ]; [ contradiction | ].
  destruct (Plain_array_inv _ _ _ _ Hpl2 Hd2) as (_ & He2 & Hn2 & Ha2 & Hal2).
  pose proof (Plain_num_Char _ _ _ Hpl) as Hn1.
  assert (Hpl3 : Plain sz e
                   (set_num_Char (set_data s2 (Some (live ++ ch :: pad')))
                                 (List.length live + 1))
                   (live ++ [ch]) pad').
  { apply Plain_array; cbn; rewrite <- ?app_assoc; cbn; auto.
    - rewrite length_app. reflexivity.
    - rewrite Ha2, !length_app. reflexivity.
    - rewrite !length_app in *. exact Hal2. }
  destruct (Plain_protect _ _ _ Hpl3) as (s' & Hp & HR' & Hro' & _).
  exists s', pad'.
  split; [ | split; [ exact HR' | split ] ].
  - unfold append. rewrite Hro, Hu. cbn [negb Z.eqb].
    rewrite Hn1, Hens. cbn [bind negb Z.eqb].
    unfold with_data. rewrite Hd2, Hn2, store_middle. cbn [bind].
    cbn [set_data m_num_Char]. rewrite Hn2, Hp. reflexivity.
  - rewrite Hro'. cbn. congruence.
  - eapply from_store_tail. exact Hfs.
Qed.

(** [set_at] on an object at rest. *)
Lemma set_at_Rep (s : SecureString) live pad offset ch :
  Rep sz e s live pad -> m_ro s = false -> offset < List.length live ->
  exists s',
    set_at sz e offset ch s = Returns (0%Z, s')
    /\ Rep sz e s' (firstn offset live ++ ch :: skipn (S offset) live) pad
    /\ m_ro s' = false.
Proof.
  intros HR Hro Hlt.
  pose proof (Rep_num_Char _ _ _ HR) as Hn.
  destruct (Rep_unprotect _ _ _ HR) as (s1 & Hu & Hpl & Hro1 & _).
  destruct (split_at live offset Hlt) as (a & x & b & Hl & Hla & Hf & Hsk).
  rewrite Hf, Hsk.
  destruct Hpl as [Hd He Hn1 Ha Hnil Hp | Hd He Hn1 Ha Hal];
    [ subst live; destruct a; discriminate | ].
  assert (Hpl2 : Plain sz e (set_data s1 (Some ((a ++ ch :: b) ++ pad)))
                   (a ++ ch :: b) pad).
  { apply Plain_array; cbn; auto.
    - rewrite Hn1, Hl, !length_app. reflexivity.
    - rewrite Ha, Hl, !length_app. reflexivity.
    - rewrite Hl, !length_app in Hal. rewrite !length_app. exact Hal. }
  destruct (Plain_protect _ _ _ Hpl2) as (s' & Hp & HR' & Hro' & _).
  exists s'. split; [ | split; [ exact HR' | ] ].
  - unfold set_at. rewrite Hro.
    replace (m_num_Char s <=? offset) with false
      by (symmetry; apply Nat.leb_gt; lia).
    rewrite Hu. cbn [negb Z.eqb].
    unfold with_data. rewrite Hd, Hl, <- app_assoc. cbn [app].
    rewrite <- Hla, store_middle. cbn [bind].
    rewrite <- app_assoc in Hp. cbn [app] in Hp. rewrite Hp. reflexivity.
  - rewrite Hro'. cbn. congruence.
Qed.

(** [remove_at] on an object at rest. *)
Lemma remove_at_Rep (s : SecureString) live pad offset :
  Rep sz e s live pad -> m_ro s = false -> offset < List.length live ->
  exists s',
    remove_at sz e offset s = Returns (0%Z, s')
    /\ Rep sz e s' (firstn offset live ++ skipn (S offset) live) (NUL :: pad)
    /\ m_ro s' = false.
Proof.
  intros HR Hro Hlt.
  pose proof (Rep_num_Char _ _ _ HR) as Hn.
  destruct (Rep_unprotect _ _ _ HR) as (s1 & Hu & Hpl & Hro1 & _).
  destruct (split_at live offset Hlt) as (a & x & b & Hl & Hla & Hf & Hsk).
  rewrite Hf, Hsk.
  destruct Hpl as [Hd He Hn1 Ha Hnil Hp | Hd He Hn1 Ha Hal];
    [ subst live; destruct a; discriminate | ].
  destruct (remove_at_loop_shifts b a pad x) as (w & Hloop).
  assert (Hlen : List.length live = List.length a + 1 + List.length b).
  { rewrite Hl, length_app. cbn. lia. }
  assert (Hpl2 : Plain sz e
                   (set_data
                      (set_num_Char
                         (set_data s1 (Some (a ++ b ++ w :: pad)))
                         (m_num_Char s1 - 1))
                      (Some ((a ++ b) ++ NUL :: pad)))
                   (a ++ b) (NUL :: pad)).
  { apply Plain_array; cbn; auto.
    - rewrite Hn1, Hlen, length_app. lia.
    - rewrite Ha, Hl. list_length. lia.
    - rewrite Hl in Hal. list_length_in Hal. list_length.
      replace (List.length a + List.length b + S (List.length pad))
        with (List.length a + S (List.length b) + List.length pad) by lia.
      exact Hal. }
  destruct (Plain_protect _ _ _ Hpl2) as (s' & Hp & HR' & Hro' & _).
  exists s'. split; [ | split; [ exact HR' | ] ].
  - unfold remove_at. rewrite Hro.
    replace (m_num_Char s <=? offset) with false
      by (symmetry; apply Nat.leb_gt; lia).
    rewrite Hu. cbn [negb Z.eqb].
    unfold with_data at 1. rewrite Hd, Hl, <- app_assoc. cbn [app].
    rewrite Hn1, Hlen, <- Hla.
    replace (List.length a + 1 + List.length b - (List.length a + 1))
      with (List.length b) by lia.
    rewrite Hloop. cbn [bind].
    unfold with_data. cbn [set_data set_num_Char m_data m_num_Char].
    rewrite Hn1, Hlen.
    replace (a ++ b ++ w :: pad) with ((a ++ b) ++ w :: pad)
      by (rewrite <- app_assoc; reflexivity).
    replace (List.length a + 1 + List.length b - 1)
      with (List.length (a ++ b)) by (rewrite length_app; lia).
    rewrite store_middle. cbn [bind].
    match goal with
    | |- Returns (protect_memory sz e ?t) = _ =>
        replace t with
          (set_data
             (set_num_Char (set_data s1 (Some (a ++ b ++ w :: pad)))
                           (m_num_Char s1 - 1))
             (Some ((a ++ b) ++ NUL :: pad)))
    end.
    + rewrite Hp. reflexivity.
    + unfold set_data, set_num_Char; cbn. rewrite Hn1, Hlen.
      rewrite length_app. f_equal. lia.
  - rewrite Hro'. cbn. congruence.
Qed.

(** [to_string] on an object at rest. *)
Lemma to_string_Rep (s : SecureString) live pad :
  Rep sz e s live pad ->
  exists s',
    to_string sz e h s = Returns (c_str_prefix live, s')
    /\ Rep sz e s' live pad
    /\ m_ro s' = m_ro s.
Proof.
  intros HR.
  destruct (Rep_unprotect _ _ _ HR) as (s1 & Hu & Hpl & Hro1 & _).
  destruct (Plain_protect _ _ _ Hpl) as (s' & Hp & HR' & Hro' & _).
  pose proof (unprotect_memory_members sz e s) as (Hn1 & _).
  rewrite Hu in Hn1. cbn [snd] in Hn1.
  exists s'. split; [ | split; [ exact HR' | congruence ] ].
  rewrite (to_string_copies sz e h s s1 Hu (h_never_null _)).
  - rewrite Hp. cbn [snd]. unfold logical_characters.
    destruct Hpl as [Hd He Hn Ha Hl Hpd | Hd He Hn Ha Hal]; rewrite Hd.
    + subst live. reflexivity.
    + rewrite Hn, firstn_app, Nat.sub_diag, firstn_all. cbn [firstn].
      rewrite app_nil_r. reflexivity.
  - rewrite <- Hn1.
    destruct Hpl as [Hd He Hn Ha Hl Hpd | Hd He Hn Ha Hal]; rewrite Hd.
    + exact Hn.
    + rewrite Hn, length_app. lia.
Qed.

(** Construction from a NUL-terminated text. *)
Lemma construct_Rep (str : list Char) :
  NUL_free str ->
  exists s pad,
    construct_string sz e h str = Returns (inr s)
    /\ Rep sz e s str pad
    /\ m_ro s = false
    /\ from_store h [] pad.
Proof.
  intros Hfree.
  destruct e_conforming as (Hsup & _).
  set (s1 := set_num_Char empty_buffer (List.length str)).
  destruct (ensure_capacity_first s1 (List.length str) eq_refl eq_refl)
    as (k & Hens & Hk1 & Hk3).
  set (fresh := map (indeterminate h) (seq 0 k)) in *.
  assert (Hpl : Plain sz e
                  (set_data (set_num_Char_allocated (set_data s1 (Some fresh)) k)
                            (Some (str ++ skipn (List.length str) fresh)))
                  str (skipn (List.length str) fresh)).
  { assert (Hlen : List.length (str ++ skipn (List.length str) fresh) = k).
    { rewrite length_app, length_skipn. unfold fresh.
      rewrite length_fresh. lia. }
    apply Plain_array; cbn; auto. rewrite Hlen. exact Hk3. }
  destruct (Plain_protect _ _ _ Hpl) as (s' & Hp & HR' & Hro' & _).
  exists s', (skipn (List.length str) fresh).
  split; [ | split; [ exact HR' | split ] ].
  - unfold construct_string, construct, construct_empty. rewrite Hsup.
    rewrite (strlen_terminated str [] Hfree). cbn [bind].
    fold empty_buffer. fold s1.
    replace (m_num_Char s1) with (List.length str) by reflexivity.
    rewrite Hens. cbn [bind negb Z.eqb m_data set_num_Char_allocated set_data].
    unfold copy.
    cbn [m_num_Char set_num_Char_allocated set_data s1 set_num_Char].
    unfold fresh at 1. rewrite length_fresh, length_app.
    replace (List.length str <=? List.length str + List.length [NUL])
      with true by (symmetry; apply Nat.leb_le; lia).
    replace (List.length str <=? k) with true
      by (symmetry; apply Nat.leb_le; lia).
    cbn [andb bind].
    rewrite firstn_app, Nat.sub_diag, firstn_all. cbn [firstn].
    rewrite app_nil_r. fold s1. rewrite Hp. reflexivity.
  - rewrite Hro'. reflexivity.
  - apply fresh_from_store.
Qed.

End Conforming.

(** ** The concrete collaborators conform *)

Lemma xor_encryptor_conforming sz key B :
  0 < B -> B mod sz = 0 \/ sz mod B = 0 -> conforming sz (xor_encryptor key B).
Proof.
  intros HB Hdiv. unfold conforming. cbn.
  split; [ reflexivity | ]. split; [ exact HB | ]. split; [ exact Hdiv | ].
  intros buffer num_bytes flags _ Hal.
  apply Nat.eqb_eq in Hal. rewrite Hal.
  exists (map (Z.lxor key) buffer).
  split; [ reflexivity | split; [ apply length_map | ] ].
  f_equal. rewrite map_map. rewrite <- (map_id buffer) at 2.
  apply map_ext. intros c.
  rewrite <- Z.lxor_assoc, Z.lxor_nilpotent. apply Z.lxor_0_l.
Qed.

Lemma zeroed_store_never_null : never_null zeroed_store.
Proof. intros n. reflexivity. Qed.

Lemma zeroed_store_zero_filling : zero_filling zeroed_store.
Proof. intros i. reflexivity. Qed.

Example construct_ab0c :
  exists s1,
    append 1 (xor_encryptor 90 4) zeroed_store NUL ab_buffer = Returns (0%Z, s1)
    /\ append 1 (xor_encryptor 90 4) zeroed_store 99%Z s1
       = Returns (0%Z, ab0c_buffer).
Proof. eexists. split; reflexivity. Qed.

(** ** Round trip through construction and extraction *)

(** C6 (counterexample).  The text ["a\0b"], of three units, handed to the
    [std::basic_string] constructor: the object has length 1 and its
    [to_string()] is ["a"].  So the round trip does not hold for every
    non-empty text. *)
Lemma text_with_NUL_does_not_round_trip :
  (exists s s',
      construct_string 1 (xor_encryptor 90 4) zeroed_store [97; 0; 98]%Z
      = Returns (inr s)
      /\ length s = 1
      /\ to_string 1 (xor_encryptor 90 4) zeroed_store s
         = Returns ([97]%Z, s'))
  /\ ~ (forall str : list Char,
          str <> [] ->
          exists s s',
            construct_string 1 (xor_encryptor 90 4) zeroed_store str
            = Returns (inr s)
            /\ length s = List.length str
            /\ to_string 1 (xor_encryptor 90 4) zeroed_store s
               = Returns (str, s')).
Proof.
  split.
  - do 2 eexists. repeat split.
  - intros H.
    destruct (H [97; 0; 98]%Z ltac:(discriminate)) as (s & s' & Hc & Hl & _).
    vm_compute in Hc. injection Hc as <-. discriminate Hl.
Qed.

(** A block size that is not commensurable with the unit size: with units
    of 4 bytes and blocks of 6, the array for ["a"] has one unit, its 4
    bytes are no whole block, and the constructor throws the [EMSGSIZE] of
    [encrypt]. *)
Example misaligned_blocks_fail_construction :
  construct_string 4 (xor_encryptor 90 6) zeroed_store [97]%Z
  = Returns (inl (SecureStringEncryptionException EMSGSIZE)).
Proof. reflexivity. Qed.

(** Units of 4 bytes with blocks of 2: every array is made of whole blocks,
    and the round trip holds. *)
Example small_blocks_round_trip :
  exists s s',
    construct_string 4 (xor_encryptor 90 2) zeroed_store [97; 98; 99]%Z
    = Returns (inr s)
    /\ m_num_Char_allocated s = 3
    /\ to_string 4 (xor_encryptor 90 2) zeroed_store s
       = Returns ([97; 98; 99]%Z, s').
Proof. do 2 eexists. repeat split. Qed.

(** C6 (amended).  For every non-empty text [str] without NUL, every
    conforming capability (supported, block size positive and commensurable
    with the unit size, [encrypt] succeeding on whole blocks and undone by
    [decrypt]) and a free store that delivers, construction from [str]
    (through the [std::basic_string] constructor, which passes [c_str()] to
    the [const Char*] one) yields an object whose [length()] is the number
    of units of [str] and whose [to_string()] is [str]. *)
Theorem construct_to_string_round_trip sz e h (str : list Char) :
  0 < sz -> conforming sz e -> never_null h ->
  NUL_free str -> str <> [] ->
  exists s s',
    construct_string sz e h str = Returns (inr s)
    /\ construct sz e h (Some (str ++ [NUL])) = Returns (inr s)
    /\ length s = List.length str
    /\ to_string sz e h s = Returns (str, s').
Proof.
  intros Hsz Hc Hnn Hfree _.
  destruct (construct_Rep sz e h Hsz Hc Hnn str Hfree)
    as (s & pad & Hcons & HR & _).
  destruct (to_string_Rep sz e h Hsz Hc Hnn s str pad HR) as (s' & Hts & _).
  exists s, s'. repeat split; auto.
  - unfold length. eapply Rep_num_Char; eauto.
  - rewrite Hts, (c_str_prefix_NUL_free str Hfree). reflexivity.
Qed.

(** C6 (instance): ["ab"], mask [0x5A], blocks of 4 bytes. *)
Lemma construct_to_string_round_trip_witness :
  exists s s',
    construct_string 1 (xor_encryptor 90 4) zeroed_store [97; 98]%Z
    = Returns (inr s)
    /\ construct 1 (xor_encryptor 90 4) zeroed_store
                 (Some ([97; 98]%Z ++ [NUL])) = Returns (inr s)
    /\ length s = 2
    /\ to_string 1 (xor_encryptor 90 4) zeroed_store s
       = Returns ([97; 98]%Z, s').
Proof.
  apply (construct_to_string_round_trip 1 (xor_encryptor 90 4) zeroed_store
           [97; 98]%Z).
  - lia.
  - apply xor_encryptor_conforming; [ lia | left; reflexivity ].
  - exact zeroed_store_never_null.
  - repeat constructor; discriminate.
  - discriminate.
Defined.

(** ** Extraction stops at the first NUL *)

(** C10.  When the stored characters are [a ++ NUL :: b] with no NUL in [a]
    (so the first NUL is at position [length a], below the logical length),
    [to_string] returns [a] alone: fewer characters than [length()].  The
    hypotheses say that decryption succeeds, that the temporary array is
    delivered and that the logical length fits the array. *)
Theorem to_string_stops_at_first_NUL sz e h (s : SecureString) (a b : list Char) :
  fst (unprotect_memory sz e s) = 0%Z ->
  alloc_fails h (m_num_Char s + 1) = false ->
  (forall d, m_data (snd (unprotect_memory sz e s)) = Some d ->
             m_num_Char s <= List.length d) ->
  stored_characters sz e s = a ++ NUL :: b ->
  NUL_free a ->
  to_string sz e h s
  = Returns (a, snd (protect_memory sz e (snd (unprotect_memory sz e s))))
  /\ List.length a < length s.
Proof.
  unfold stored_characters, length.
  destruct (unprotect_memory sz e s) as [err s1] eqn:Hu. cbn [fst snd].
  intros -> Hnew Hfit Hst Hfree.
  pose proof (unprotect_memory_members sz e s) as (Hn1 & _).
  rewrite Hu in Hn1. cbn [snd] in Hn1.
  split.
  - rewrite (to_string_copies sz e h s s1 Hu Hnew).
    + rewrite Hst, c_str_prefix_stops by assumption. reflexivity.
    + destruct (m_data s1) as [ d | ] eqn:Hd; [ apply Hfit; reflexivity | ].
      unfold logical_characters in Hst. rewrite Hd in Hst.
      destruct a; discriminate Hst.
  - apply (f_equal (@List.length Char)) in Hst.
    unfold logical_characters in Hst.
    destruct (m_data s1) as [ d | ]; [ | destruct a; discriminate Hst ].
    rewrite length_firstn, length_app, Hn1 in Hst. cbn in Hst. lia.
Qed.

(** C10 (instance): the stored characters ["ab\0c"] are extracted as
    ["ab"]. *)
Lemma to_string_stops_at_first_NUL_witness :
  to_string 1 (xor_encryptor 90 4) zeroed_store ab0c_buffer
  = Returns ([97; 98]%Z,
             snd (protect_memory 1 (xor_encryptor 90 4)
                    (snd (unprotect_memory 1 (xor_encryptor 90 4) ab0c_buffer))))
  /\ List.length [97; 98]%Z < length ab0c_buffer.
Proof.
  apply (to_string_stops_at_first_NUL 1 (xor_encryptor 90 4) zeroed_store
           ab0c_buffer [97; 98]%Z [99]%Z).
  - reflexivity.
  - reflexivity.
  - intros d Hd. cbn in Hd. injection Hd as Hd. subst d. cbn. lia.
  - reflexivity.
  - repeat constructor; discriminate.
Defined.

(** The operations store NUL like any other unit. *)
Lemma NUL_can_be_stored sz e h (s : SecureString) live pad offset :
  0 < sz -> conforming sz e -> never_null h ->
  Rep sz e s live pad -> m_ro s = false -> offset < List.length live ->
  (exists s' pad',
      append sz e h NUL s = Returns (0%Z, s')
      /\ Rep sz e s' (live ++ [NUL]) pad')
  /\ (exists s',
         set_at sz e offset NUL s = Returns (0%Z, s')
         /\ Rep sz e s'
              (firstn offset live ++ NUL :: skipn (S offset) live) pad).
Proof.
  intros Hsz Hc Hnn HR Hro Hlt. split.
  - destruct (append_Rep sz e h Hsz Hc Hnn s live pad NUL HR Hro)
      as (s' & pad' & Happ & HR' & _).
    eauto.
  - destruct (set_at_Rep sz e Hsz Hc s live pad offset NUL HR Hro Hlt)
      as (s' & Hset & HR' & _).
    eauto.
Qed.

Example insert_at_accepts_NUL :
  exists s' s'',
    insert_at 1 (xor_encryptor 90 4) zeroed_store 1 NUL ab_buffer
    = Returns (0%Z, s')
    /\ to_string 1 (xor_encryptor 90 4) zeroed_store s'
       = Returns ([97]%Z, s'').
Proof. do 2 eexists. split; vm_compute; reflexivity. Qed.

(** ** Which errors are returned *)

(** [unprotect_memory] followed by [protect_memory] gives back the very
    object. *)
Lemma Rep_unprotect_protect sz e (s : SecureString) live pad :
  conforming sz e -> Rep sz e s live pad ->
  exists s1,
    unprotect_memory sz e s = (0%Z, s1)
    /\ logical_characters s1 = live
    /\ protect_memory sz e s1 = (0%Z, s).
Proof.
  intros Hc HR.
  destruct HR as [Hd He Hn Ha Hl Hp | c Hd He Hn Ha Hal Hcr].
  - exists s. unfold unprotect_memory, protect_memory, logical_characters.
    rewrite Hd. auto.
  - destruct (conforming_round_trip sz e Hc _ Hal) as (c' & Hc' & Hdec).
    rewrite Hcr in Hc'. injection Hc' as <-.
    exists (set_encrypted (set_data s (Some (live ++ pad))) false).
    split; [ | split ].
    + unfold unprotect_memory, Char_to_bytes.
      rewrite Hd, He, Ha, Hdec. reflexivity.
    + unfold logical_characters. cbn.
      rewrite Hn, firstn_app, Nat.sub_diag, firstn_all. cbn [firstn].
      apply app_nil_r.
    + unfold protect_memory, Char_to_bytes. cbn. rewrite Ha, Hcr. cbn.
      destruct s; cbn in *; subst; reflexivity.
Qed.

Lemma to_string_Rep_exact sz e h (s : SecureString) live pad :
  conforming sz e -> never_null h -> Rep sz e s live pad ->
  to_string sz e h s = Returns (c_str_prefix live, s).
Proof.
  intros Hc Hnn HR.
  destruct (Rep_unprotect_protect sz e s live pad Hc HR)
    as (s1 & Hu & Hl & Hp).
  pose proof (unprotect_memory_members sz e s) as (Hn1 & _).
  rewrite Hu in Hn1. cbn [snd] in Hn1.
  rewrite (to_string_copies sz e h s s1 Hu (Hnn _)).
  - rewrite Hl, Hp. reflexivity.
  - destruct (Rep_unprotect sz e Hc s live pad HR)
      as (s1' & Hu' & Hpl & _).
    rewrite Hu in Hu'. inv Hu'. rewrite <- Hn1.
    destruct Hpl as [Hd He Hn Ha Hnil Hpd | Hd He Hn Ha Hal]; rewrite Hd.
    + exact Hn.
    + rewrite Hn, length_app. lia.
Qed.

Lemma ensure_capacity_never_fails sz e h n (s s' : SecureString) r :
  never_null h ->
  ensure_capacity sz e h n s = Returns (r, s') -> r = 0%Z.
Proof.
  intros Hnn. unfold ensure_capacity, new_Char. intros H.
  code_step H. code_step H; [ inv H; reflexivity | ].
  rewrite Hnn in H. code_step H. code_step H. inv H. reflexivity.
Qed.

Lemma to_string_unprotect_failure sz e h (s : SecureString) :
  fst (unprotect_memory sz e s) <> 0%Z ->
  to_string sz e h s = Returns ([], snd (unprotect_memory sz e s)).
Proof.
  unfold to_string. destruct (unprotect_memory sz e s) as [err s1].
  cbn [fst snd]. intros Herr. apply Z.eqb_neq in Herr. rewrite Herr.
  reflexivity.
Qed.










(** A failed [encrypt] at the end of a mutating operation is what the
    operation returns: [set_at(0, 'z')] with the encryptor that rejects a
    buffer starting with ['z']. *)
Example failed_encrypt_is_returned :
  set_at 1 picky_encryptor 0 122%Z ab_buffer
  = Returns (EOPNOTSUPP, zb_plain_buffer)
  /\ fst (protect_memory 1 picky_encryptor
            (set_encrypted (set_data ab_buffer (Some [122; 98; 0; 0]%Z)) false))
     = EOPNOTSUPP.
Proof. split; reflexivity. Qed.

(** ** The padding *)

Lemma Rep_stored sz e (s : SecureString) live pad :
  conforming sz e -> Rep sz e s live pad ->
  stored_characters sz e s = live /\ stored_padding sz e s = pad.
Proof.
  intros Hc HR.
  destruct (Rep_unprotect sz e Hc s live pad HR) as (s1 & Hu & Hpl & _).
  unfold stored_characters, stored_padding, logical_characters, padding.
  rewrite Hu. cbn [snd].
  destruct Hpl as [Hd He Hn Ha Hl Hp | Hd He Hn Ha Hal]; rewrite Hd.
  - subst. auto.
  - rewrite Hn, firstn_app, skipn_app, Nat.sub_diag, firstn_all, skipn_all.
    cbn [firstn skipn app]. rewrite app_nil_r. auto.
Qed.

(** C9 (counterexample).  The units past the logical length are the ones
    [new Char[n]] delivered:
    on a store whose arrays hold [0xAA], the object built from ["ab"] has
    the padding [0xAA; 0xAA], in the array itself and in its plaintext. *)
Lemma fresh_array_padding_is_not_zeroed :
  construct_string 1 (xor_encryptor 0 4) stale_store [97; 98]%Z
  = Returns (inr stale_ab_buffer)
  /\ padding stale_ab_buffer = [170; 170]%Z
  /\ stored_padding 1 (xor_encryptor 0 4) stale_ab_buffer = [170; 170]%Z
  /\ ~ all_NUL (stored_padding 1 (xor_encryptor 0 4) stale_ab_buffer).
Proof.
  repeat split.
  intros H. unfold all_NUL in H. rewrite Forall_forall in H.
  specialize (H 170%Z). cbn in H. discriminate H. tauto.
Qed.

(** C9 (amended).  The code does not initialise the arrays it obtains, and
    capacity growth copies the logical characters only: every padding unit
    is one the free store delivered or the zero [remove_at] writes into the
    vacated slot.  Hence, with a conforming capability and a free store that
    delivers zero-filled arrays, the padding of the plaintext is all zero
    after construction and stays so under [append], [set_at], [remove_at]
    and [to_string]. *)
Theorem padding_is_zero_on_zero_filled_store sz e h :
  0 < sz -> conforming sz e -> never_null h -> zero_filling h ->
  (forall s live pad,
      Rep sz e s live pad -> stored_padding sz e s = pad)
  /\ (forall str,
         NUL_free str ->
         exists s pad,
           construct_string sz e h str = Returns (inr s)
           /\ Rep sz e s str pad /\ all_NUL pad)
  /\ (forall s live pad ch,
         Rep sz e s live pad -> m_ro s = false -> all_NUL pad ->
         exists s' pad',
           append sz e h ch s = Returns (0%Z, s')
           /\ Rep sz e s' (live ++ [ch]) pad' /\ all_NUL pad')
  /\ (forall s live pad offset ch,
         Rep sz e s live pad -> m_ro s = false -> all_NUL pad ->
         offset < List.length live ->
         exists s',
           set_at sz e offset ch s = Returns (0%Z, s')
           /\ Rep sz e s' (firstn offset live ++ ch :: skipn (S offset) live)
                  pad)
  /\ (forall s live pad offset,
         Rep sz e s live pad -> m_ro s = false -> all_NUL pad ->
         offset < List.length live ->
         exists s',
           remove_at sz e offset s = Returns (0%Z, s')
           /\ Rep sz e s' (firstn offset live ++ skipn (S offset) live)
                  (NUL :: pad)
           /\ all_NUL (NUL :: pad))
  /\ (forall s live pad,
         Rep sz e s live pad -> all_NUL pad ->
         exists r s',
           to_string sz e h s = Returns (r, s') /\ Rep sz e s' live pad).
Proof.
  intros Hsz Hc Hnn Hz.
  split; [ intros s live pad HR; apply (Rep_stored sz e s live pad Hc HR) | ].
  split.
  { intros str Hfree.
    destruct (construct_Rep sz e h Hsz Hc Hnn str Hfree)
      as (s & pad & Hcons & HR & _ & Hfs).
    exists s, pad. repeat split; auto.
    eapply from_store_all_NUL; eauto. constructor. }
  split.
  { intros s live pad ch HR Hro Hpad.
    destruct (append_Rep sz e h Hsz Hc Hnn s live pad ch HR Hro)
      as (s' & pad' & Happ & HR' & _ & Hfs).
    exists s', pad'. repeat split; auto.
    eapply from_store_all_NUL; eauto. }
  split.
  { intros s live pad offset ch HR Hro Hpad Hlt.
    destruct (set_at_Rep sz e Hsz Hc s live pad offset ch HR Hro Hlt)
      as (s' & Hset & HR' & _).
    eauto. }
  split.
  { intros s live pad offset HR Hro Hpad Hlt.
    destruct (remove_at_Rep sz e Hsz Hc s live pad offset HR Hro Hlt)
      as (s' & Hrem & HR' & _).
    exists s'. repeat split; auto. constructor; [ reflexivity | exact Hpad ]. }
  intros s live pad HR Hpad.
  destruct (to_string_Rep sz e h Hsz Hc Hnn s live pad HR) as (s' & Hts & HR' & _).
  eauto.
Qed.

(** C9 (instance): the object built from ["ab"] on the zero-filled store,
    and [append('c')] on it. *)
Lemma padding_is_zero_on_zero_filled_store_witness :
  stored_padding 1 (xor_encryptor 90 4) ab_buffer = [0; 0]%Z
  /\ exists s' pad',
       append 1 (xor_encryptor 90 4) zeroed_store 99%Z ab_buffer
       = Returns (0%Z, s')
       /\ Rep 1 (xor_encryptor 90 4) s' ([97; 98]%Z ++ [99%Z]) pad'
       /\ all_NUL pad'.
Proof.
  assert (Hc : conforming 1 (xor_encryptor 90 4))
    by (apply xor_encryptor_conforming; [ lia | left; reflexivity ]).
  assert (HR : Rep 1 (xor_encryptor 90 4) ab_buffer [97; 98]%Z [0; 0]%Z)
    by (eapply Rep_array; reflexivity).
  destruct (padding_is_zero_on_zero_filled_store 1 (xor_encryptor 90 4)
              zeroed_store ltac:(lia) Hc zeroed_store_never_null
              zeroed_store_zero_filling) as (Hpad & _ & Happ & _).
  split.
  - exact (Hpad ab_buffer _ _ HR).
  - apply (Happ ab_buffer [97; 98]%Z [0; 0]%Z 99%Z HR eq_refl).
    repeat constructor.
Defined.

(** ** Edit sequences against the plain character sequence *)

Section Edits.

Variable sz : nat.
Variable e : Encryptor.
Variable h : Allocator.
Hypothesis sz_pos : 0 < sz.
Hypothesis e_conforming : conforming sz e.
Hypothesis h_never_null : never_null h.

(** [insert_at] on an object at rest, below the length: it returns 0, and the
    logical characters are the plain result without its last character [c],
    which stays in the first padding unit. *)
Lemma insert_at_Rep (s : SecureString) live pad offset ch :
  Rep sz e s live pad -> m_ro s = false -> offset < List.length live ->
  exists s' live' c pad',
    insert_at sz e h offset ch s = Returns (0%Z, s')
    /\ Rep sz e s' live' (c :: pad')
    /\ live' ++ [c] = edit_plain (InsertAt offset ch) live
    /\ length s' = length s.
Proof.
  intros HR Hro Hlt.
  pose proof (Rep_num_Char _ _ _ _ _ HR) as Hn.
  destruct (Rep_unprotect sz e e_conforming _ _ _ HR)
    as (s1 & Hu & Hpl & Hro1 & _).
  pose proof (Plain_num_Char _ _ _ _ _ Hpl) as Hn1.
  destruct (ensure_capacity_Plain sz e h sz_pos e_conforming h_never_null
              _ _ _ Hpl)
    as (s2 & pad2 & Hens & Hpl2 & Hd2 & Hne & Hfs & Hro2 & _).
  destruct pad2 as [ | z rest ]; [ contradiction | ].
  destruct (Plain_array_inv _ _ _ _ _ _ Hpl2 Hd2)
    as (_ & He2 & Hn2 & Ha2 & Hal2).
  destruct (split_at live offset Hlt) as (a & x & b0 & Hl & Hla & Hf & Hsk).
  assert (Hskip : skipn offset live = x :: b0).
  { rewrite Hl, <- Hla, skipn_app, skipn_all, Nat.sub_diag. reflexivity. }
  destruct (exists_last (l := x :: b0) ltac:(discriminate)) as (b' & c & Hb).
  assert (Hlen : List.length live = List.length a + S (List.length b')).
  { rewrite Hl, Hb, !length_app. cbn. lia. }
  assert (Hpl3 : Plain sz e
                   (set_data s2 (Some ((a ++ ch :: b') ++ c :: rest)))
                   (a ++ ch :: b') (c :: rest)).
  { apply Plain_array; cbn [set_data m_data m_encrypted m_num_Char
                             m_num_Char_allocated]; auto.
    - rewrite Hn2, Hlen. list_length. reflexivity.
    - rewrite Ha2. list_length. rewrite Hlen. lia.
    - list_length. list_length_in Hal2. rewrite Hlen in Hal2.
      exact Hal2. }
  destruct (Plain_protect sz e e_conforming _ _ _ Hpl3)
    as (s' & Hp & HR' & Hro' & _).
  exists s', (a ++ ch :: b'), c, rest.
  split; [ | split; [ exact HR' | split ] ].
  - unfold insert_at. rewrite Hro.
    replace (m_num_Char s <=? offset) with false
      by (symmetry; apply Nat.leb_gt; lia).
    rewrite Hu. cbn [negb Z.eqb]. rewrite Hn1, Hens. cbn [bind].
    unfold with_data at 1. rewrite Hd2, Hn2.
    replace (live ++ z :: rest) with (a ++ (x :: b0) ++ z :: rest)
      by (rewrite Hl, <- app_assoc; reflexivity).
    replace (List.length live) with (List.length a + List.length (x :: b0))
      by (rewrite Hl, length_app; reflexivity).
    rewrite <- Hla, insert_at_loop_shifts. cbn [bind hd].
    unfold with_data. cbn [set_data m_data].
    rewrite store_middle. cbn [bind].
    match goal with
    | |- Returns (protect_memory sz e ?t) = _ =>
        replace t with (set_data s2 (Some ((a ++ ch :: b') ++ c :: rest)))
    end.
    + rewrite Hp. reflexivity.
    + rewrite Hb. unfold set_data; cbn. rewrite <- !app_assoc. reflexivity.
  - unfold edit_plain. rewrite Hf, Hskip, Hb, <- app_assoc. reflexivity.
  - unfold length. rewrite (Rep_num_Char _ _ _ _ _ HR'), Hn, Hlen.
    list_length. reflexivity.
Qed.

(** Sequences of [append] and [remove_at] agree with the plain sequence:
    every edit returns 0, and afterwards [length()] and [to_string()] are
    those of the plain result (as far as its first NUL). *)
Lemma appends_and_removals_refine_plain (es : list edit) :
  forall (s : SecureString) live pad,
    Rep sz e s live pad -> m_ro s = false ->
    appends_and_removals es live ->
    exists s' pad' s'',
      run_edits sz e h es s = Returns (0%Z, s')
      /\ Rep sz e s' (plain_edits es live) pad'
      /\ length s' = List.length (plain_edits es live)
      /\ to_string sz e h s'
         = Returns (c_str_prefix (plain_edits es live), s'').
Proof.
  induction es as [ | ed rest IH ]; intros s live pad HR Hro Hok.
  - destruct (to_string_Rep sz e h sz_pos e_conforming h_never_null
                _ _ _ HR) as (s'' & Hts & _).
    exists s, pad, s''. repeat split; auto.
    unfold length. eapply Rep_num_Char; eauto.
  - destruct ed as [ ch | offset ch | offset ]; cbn [appends_and_removals] in Hok.
    + destruct (append_Rep sz e h sz_pos e_conforming h_never_null
                  _ _ _ ch HR Hro) as (s1 & pad1 & Happ & HR1 & Hro1 & _).
      destruct (IH _ _ _ HR1 Hro1 Hok) as (s' & pad' & s'' & Hrun & Hrest).
      exists s', pad', s''. split; [ | exact Hrest ].
      cbn [run_edits edit_buffer]. rewrite Happ. cbn [bind Z.eqb]. exact Hrun.
    + contradiction.
    + destruct Hok as [Hlt Hok].
      destruct (remove_at_Rep sz e sz_pos e_conforming _ _ _ offset HR Hro Hlt)
        as (s1 & Hrem & HR1 & Hro1).
      destruct (IH _ _ _ HR1 Hro1 Hok) as (s' & pad' & s'' & Hrun & Hrest).
      exists s', pad', s''. split; [ | exact Hrest ].
      cbn [run_edits edit_buffer]. rewrite Hrem. cbn [bind Z.eqb]. exact Hrun.
Qed.

End Edits.

(** Capacity growth, by contrast, releases an array that is zero throughout:
    the array is replaced only when it is full, so the fill up to the logical
    length covers it. *)
Lemma growth_releases_zeroed_array sz e h (s : SecureString) live pad :
  0 < sz -> conforming sz e -> never_null h ->
  Plain sz e s live pad ->
  exists s',
    ensure_capacity sz e h (List.length live + 1) s = Returns (0%Z, s')
    /\ (released s' = released s
        \/ (m_num_Char_allocated s = List.length live
            /\ released s' = repeat NUL (List.length live) :: released s)).
Proof.
  intros Hsz Hc Hnn Hpl.
  destruct (ensure_capacity_Plain sz e h Hsz Hc Hnn s live pad Hpl)
    as (s' & pad' & Hens & _ & _ & _ & _ & _ & [Hsame | [Hfull Hrel]]).
  - exists s'. auto.
  - exists s'. split; [ exact Hens | right ]. split; [ | exact Hrel ].
    subst pad.
    destruct Hpl as [Hd He Hn Ha Hl Hp | Hd He Hn Ha Hal].
    + subst live. exact Ha.
    + rewrite Ha, app_nil_r. reflexivity.
Qed.

(** * Further properties of the code *)

(** ** The capacity computation *)

Lemma size_t_wrap_small M x : x <= M -> size_t_wrap M x = x.
Proof. intros H. unfold size_t_wrap. apply Nat.mod_small. lia. Qed.

(** [x - 1] in [size_t], for [x] from 1 to [SIZE_MAX + 1]. *)
Lemma size_t_less_one M x :
  0 < x -> x <= M + 1 ->
  size_t_wrap M (size_t_wrap M x + M) = x - 1.
Proof.
  intros Hx Hle. unfold size_t_wrap.
  rewrite Nat.Div0.add_mod_idemp_l.
  replace (x + M) with (x - 1 + 1 * (M + 1)) by lia.
  rewrite Nat.Div0.mod_add. apply Nat.mod_small. lia.
Qed.

(** As long as the bytes of [n] units and one block less one byte fit in
    [size_t], the computation in [size_t] is the one in the natural
    numbers. *)
Lemma encryptor_required_bytes_size_t_fits M sz e n :
  0 < block_size e ->
  Char_to_bytes sz n + block_size e - 1 <= M ->
  encryptor_required_bytes_size_t M sz e n = encryptor_required_bytes sz e n.
Proof.
  intros HB Hfit.
  unfold encryptor_required_bytes_size_t, encryptor_required_bytes,
    Char_to_bytes_size_t, Char_to_bytes in *.
  destruct (n =? 0); [ reflexivity | ].
  destruct (block_size e =? 0); [ reflexivity | ].
  rewrite (size_t_wrap_small M (n * sz)) by lia.
  rewrite size_t_less_one by lia.
  rewrite size_t_wrap_small; [ reflexivity | ].
  pose proof (Nat.Div0.mul_div_le (n * sz + block_size e - 1) (block_size e)).
  lia.
Qed.

(** An 8-bit [size_t] shows the wrap: for 255 units of one byte and blocks
    of 4 bytes the sum wraps to 2, and the function returns 0. *)
Example encryptor_required_bytes_wraps :
  encryptor_required_bytes_size_t 255 1 (xor_encryptor 90 4) 255 = Returns 0
  /\ encryptor_required_bytes 1 (xor_encryptor 90 4) 255 = Returns 256.
Proof. split; reflexivity. Qed.

(** X1.  [encryptor_required_bytes], computed in [size_t]: for a positive
    block size and [n] units whose bytes, with one block less one byte
    added, do not exceed [SIZE_MAX], the result is the one computed in the
    natural numbers; it is a whole number of blocks that holds the bytes of
    [n] units, and the least such number when [n] is not 0; for [n = 0] it
    is one block. *)
Theorem encryptor_required_bytes_rounds_up SIZE_MAX sz e n :
  0 < block_size e ->
  Char_to_bytes sz n + block_size e - 1 <= SIZE_MAX ->
  encryptor_required_bytes_size_t SIZE_MAX sz e n
  = encryptor_required_bytes sz e n
  /\ exists r,
       encryptor_required_bytes_size_t SIZE_MAX sz e n = Returns r
       /\ r mod block_size e = 0
       /\ Char_to_bytes sz n <= r
       /\ (n = 0 -> r = block_size e)
       /\ (0 < n ->
           forall m,
             m mod block_size e = 0 -> Char_to_bytes sz n <= m -> r <= m).
Proof.
  intros HB Hfit.
  rewrite (encryptor_required_bytes_size_t_fits SIZE_MAX sz e n HB Hfit).
  split; [ reflexivity | ].
  unfold encryptor_required_bytes, Char_to_bytes.
  destruct (n =? 0) eqn:En.
  - apply Nat.eqb_eq in En. subst n. exists (block_size e).
    split; [ reflexivity | ]. split; [ apply Nat.Div0.mod_same | ].
    split; [ cbn; lia | ]. split; [ reflexivity | lia ].
  - apply Nat.eqb_neq in En.
    replace (block_size e =? 0) with false
      by (symmetry; apply Nat.eqb_neq; lia).
    eexists. split; [ reflexivity | ].
    split; [ apply round_up_aligned | ].
    split; [ apply round_up_ge; exact HB | ].
    split; [ lia | ].
    intros _ m Hm Hle. apply round_up_least; assumption.
Qed.

(** X1 (instance): three [wchar_t] units of 4 bytes need 16 bytes with
    blocks of 8, in a [size_t] of 8 bits. *)
Lemma encryptor_required_bytes_rounds_up_witness :
  encryptor_required_bytes_size_t 255 4 (xor_encryptor 90 8) 3
  = encryptor_required_bytes 4 (xor_encryptor 90 8) 3
  /\ exists r,
       encryptor_required_bytes_size_t 255 4 (xor_encryptor 90 8) 3
       = Returns r
       /\ r mod 8 = 0
       /\ Char_to_bytes 4 3 <= r
       /\ (3 = 0 -> r = 8)
       /\ (0 < 3 ->
           forall m, m mod 8 = 0 -> Char_to_bytes 4 3 <= m -> r <= m).
Proof.
  apply (encryptor_required_bytes_rounds_up 255 4 (xor_encryptor 90 8) 3).
  - cbn. lia.
  - cbn. lia.
Defined.

(** [ensure_capacity] in the model: what a returning call has done. *)
Lemma ensure_capacity_returns sz e h n (s s' : SecureString) r :
  0 < sz ->
  ensure_capacity sz e h n s = Returns (r, s') ->
  (r = 0%Z \/ r = ENOMEM)
  /\ (r = ENOMEM -> s' = s)
  /\ m_num_Char s' = m_num_Char s
  /\ m_num_Char_allocated s <= m_num_Char_allocated s'
  /\ (r = 0%Z -> n <= m_num_Char_allocated s')
  /\ (r = 0%Z ->
      forall d, m_data s = Some d ->
      exists d',
        m_data s' = Some d'
        /\ firstn (m_num_Char s) d' = firstn (m_num_Char s) d).
Proof.
  intros Hsz. unfold ensure_capacity, Char_to_bytes, bytes_to_Chars.
  intros H.
  destruct (encryptor_required_bytes sz e n) as [ req | ] eqn:Hreq;
    cbn [bind] in H; [ | discriminate H ].
  assert (Hge : n * sz <= req).
  { unfold encryptor_required_bytes, Char_to_bytes in Hreq.
    destruct (n =? 0) eqn:En.
    - apply Nat.eqb_eq in En. subst n. cbn. lia.
    - destruct (block_size e =? 0) eqn:EB; [ discriminate Hreq | ].
      apply Nat.eqb_neq in EB. injection Hreq as Hreq. subst req.
      apply round_up_ge. lia. }
  destruct (req <=? m_num_Char_allocated s * sz) eqn:Efit.
  - apply Nat.leb_le in Efit. inv H.
    split; [ left; reflexivity | ].
    split; [ discriminate | ]. split; [ reflexivity | ].
    split; [ lia | ]. split; [ intros _; nia | ].
    intros _ d Hd. exists d. auto.
  - apply Nat.leb_gt in Efit.
    assert (Hgrow : m_num_Char_allocated s <= req / sz /\ n <= req / sz).
    { split; apply Nat.div_le_lower_bound; lia. }
    destruct (new_Char h (req / sz)) as [ fresh | ] eqn:Hnew.
    + code_step H. code_step H. inv H.
      apply discard_data_members in E0. destruct E0 as (Hn0 & _).
      split; [ left; reflexivity | ].
      split; [ discriminate | ].
      split; [ cbn; exact Hn0 | ].
      split; [ cbn; tauto | ]. split; [ intros _; cbn; tauto | ].
      intros _ d Hd. rewrite Hd in E. unfold copy in E.
      destruct ((m_num_Char s <=? List.length d)
                && (m_num_Char s <=? List.length fresh)) eqn:Echk;
        [ | discriminate E ].
      injection E as E. subst a. eexists. split; [ reflexivity | ].
      apply andb_true_iff in Echk. destruct Echk as [H1 _].
      apply Nat.leb_le in H1.
      rewrite firstn_app, firstn_firstn, Nat.min_id, length_firstn.
      replace (m_num_Char s - Nat.min (m_num_Char s) (List.length d))
        with 0 by lia.
      cbn [firstn]. apply app_nil_r.
    + inv H.
      split; [ right; reflexivity | ]. split; [ reflexivity | ].
      split; [ reflexivity | ]. split; [ lia | ].
      split; discriminate.
Qed.

(** With a free store that delivers, and an object whose logical length is
    within its array, [ensure_capacity] returns. *)
Lemma ensure_capacity_is_defined sz e h n (s : SecureString) :
  0 < sz -> 0 < block_size e -> never_null h ->
  m_num_Char s <= m_num_Char_allocated s ->
  (forall d, m_data s = Some d -> List.length d = m_num_Char_allocated s) ->
  exists s', ensure_capacity sz e h n s = Returns (0%Z, s').
Proof.
  intros Hsz HB Hnn Hle Hlen.
  unfold ensure_capacity, Char_to_bytes, bytes_to_Chars.
  assert (Hreq : exists req, encryptor_required_bytes sz e n = Returns req).
  { unfold encryptor_required_bytes.
    destruct (n =? 0); [ eauto | ].
    replace (block_size e =? 0) with false
      by (symmetry; apply Nat.eqb_neq; lia).
    eauto. }
  destruct Hreq as (req & Hreq). rewrite Hreq. cbn [bind].
  destruct (req <=? m_num_Char_allocated s * sz) eqn:Efit; [ eauto | ].
  apply Nat.leb_gt in Efit.
  assert (Hgrow : m_num_Char_allocated s <= req / sz)
    by (apply Nat.div_le_lower_bound; lia).
  unfold new_Char. rewrite Hnn.
  unfold discard_data, copy, fill.
  destruct (m_data s) as [ d | ] eqn:Hd.
  - rewrite length_fresh, (Hlen d eq_refl).
    replace (m_num_Char s <=? m_num_Char_allocated s) with true
      by (symmetry; apply Nat.leb_le; lia).
    replace (m_num_Char s <=? req / sz) with true
      by (symmetry; apply Nat.leb_le; lia).
    cbn [andb bind]. eauto.
  - cbn [bind]. eauto.
Qed.

(** X2.  [ensure_capacity(n)], computed in [size_t], on an object whose
    logical length is within its array, with a free store that delivers and
    sizes that fit in [size_t]: it returns 0 and does what the computation
    in the natural numbers does; the allocated length has not shrunk and
    holds [n] units, the logical length is as before, and an array that
    existed is followed by one with the same logical characters. *)
Theorem ensure_capacity_keeps_or_grows SIZE_MAX sz e h n (s : SecureString) :
  0 < sz -> 0 < block_size e -> never_null h ->
  Char_to_bytes sz n + block_size e - 1 <= SIZE_MAX ->
  Char_to_bytes sz (m_num_Char_allocated s) <= SIZE_MAX ->
  m_num_Char s <= m_num_Char_allocated s ->
  (forall d, m_data s = Some d -> List.length d = m_num_Char_allocated s) ->
  exists s',
    ensure_capacity_size_t SIZE_MAX sz e h n s = Returns (0%Z, s')
    /\ ensure_capacity sz e h n s = Returns (0%Z, s')
    /\ m_num_Char s' = m_num_Char s
    /\ m_num_Char_allocated s <= m_num_Char_allocated s'
    /\ n <= m_num_Char_allocated s'
    /\ (forall d,
           m_data s = Some d ->
           exists d',
             m_data s' = Some d'
             /\ firstn (m_num_Char s) d' = firstn (m_num_Char s) d).
Proof.
  intros Hsz HB Hnn Hfit Hfit' Hle Hlen.
  destruct (ensure_capacity_is_defined sz e h n s Hsz HB Hnn Hle Hlen)
    as (s' & Hens).
  exists s'.
  destruct (ensure_capacity_returns sz e h n s s' 0%Z Hsz Hens)
    as (_ & _ & Hn & Ha & Hhold & Hkeep).
  split; [ | split; [ exact Hens | ] ].
  - rewrite <- Hens. unfold ensure_capacity_size_t, ensure_capacity.
    rewrite (encryptor_required_bytes_size_t_fits SIZE_MAX sz e n HB Hfit).
    unfold Char_to_bytes_size_t. unfold Char_to_bytes in Hfit'.
    rewrite (size_t_wrap_small SIZE_MAX _ Hfit'). reflexivity.
  - split; [ exact Hn | ]. split; [ exact Ha | ].
    split; [ apply Hhold; reflexivity | apply Hkeep; reflexivity ].
Qed.

(** X2 (instance): the full array of 4 units of the object holding
    ["ab\0c"] is replaced by one of 8 units. *)
Lemma ensure_capacity_keeps_or_grows_witness :
  exists s',
    ensure_capacity_size_t 255 1 (xor_encryptor 90 4) zeroed_store 5
                           ab0c_buffer
    = Returns (0%Z, s')
    /\ ensure_capacity 1 (xor_encryptor 90 4) zeroed_store 5 ab0c_buffer
       = Returns (0%Z, s')
    /\ m_num_Char s' = m_num_Char ab0c_buffer
    /\ m_num_Char_allocated ab0c_buffer <= m_num_Char_allocated s'
    /\ 5 <= m_num_Char_allocated s'
    /\ (forall d,
           m_data ab0c_buffer = Some d ->
           exists d',
             m_data s' = Some d'
             /\ firstn (m_num_Char ab0c_buffer) d'
                = firstn (m_num_Char ab0c_buffer) d).
Proof.
  apply (ensure_capacity_keeps_or_grows 255 1 (xor_encryptor 90 4)
           zeroed_store 5 ab0c_buffer).
  - lia.
  - cbn. lia.
  - exact zeroed_store_never_null.
  - cbn. lia.
  - cbn. lia.
  - cbn. lia.
  - intros d Hd. injection Hd as <-. reflexivity.
Defined.

(** ** Offsets out of range *)

(** X3.  [set_at] and [remove_at] reject every offset that is not below the
    length and leave the object as it is: with [E2BIG] on a modifiable
    object, with [EPERM] on a read-only one (the read-only test comes
    first).  On an object of length 0 every offset is rejected. *)
Theorem offsets_from_length_on_are_rejected sz e (s : SecureString) ch k :
  set_at sz e (length s + k) ch s
  = Returns ((if m_ro s then EPERM else E2BIG), s)
  /\ remove_at sz e (length s + k) s
     = Returns ((if m_ro s then EPERM else E2BIG), s).
Proof.
  unfold set_at, remove_at, length.
  destruct (m_ro s); [ split; reflexivity | ].
  replace (m_num_Char s <=? m_num_Char s + k) with true
    by (symmetry; apply Nat.leb_le; lia).
  split; reflexivity.
Qed.

(** ** The logical length under the operations *)

Lemma c_str_prefix_length_le (a b : list Char) :
  List.length (c_str_prefix (a ++ NUL :: b)) <= List.length a.
Proof.
  induction a as [ | c r IH ]; [ cbn; lia | ].
  cbn. destruct (Z.eqb c NUL); cbn; lia.
Qed.

(** X4.  Without any assumption on the capability: [append] that returns 0
    has increased the length by one, and [append] that returns an error has
    left it or has already increased it by one; [set_at] never changes the
    length; [remove_at] that returns 0 has decreased it by one; [to_string]
    changes neither the length nor the read-only flag, and the text it
    returns has at most [length()] characters. *)
Theorem length_under_the_operations sz e h :
  (forall ch s r s',
      append sz e h ch s = Returns (r, s') ->
      (r = 0%Z -> length s' = length s + 1)
      /\ (length s' = length s \/ length s' = length s + 1))
  /\ (forall offset ch s r s',
         set_at sz e offset ch s = Returns (r, s') -> length s' = length s)
  /\ (forall offset s s',
         remove_at sz e offset s = Returns (0%Z, s') ->
         length s' + 1 = length s)
  /\ (forall s text s',
         to_string sz e h s = Returns (text, s') ->
         length s' = length s /\ is_ro s' = is_ro s
         /\ List.length text <= length s).
Proof.
  unfold length, is_ro.
  split; [ | split; [ | split ] ].
  - intros ch s r s' H. unfold append in H.
    code_step H; [ inv H; split; [ discriminate | auto ] | ].
    pose proof (unprotect_memory_members sz e s) as (Hn & _).
    code_step H. cbn [snd] in Hn.
    code_step H.
    { inv H. split; [ | auto ].
      intros ->. discriminate E1. }
    code_step H. destruct a as [r2 s2]. cbn in H.
    apply ensure_capacity_members in E2. destruct E2 as (Hn2 & _).
    code_step H.
    { inv H. split; [ | left; lia ].
      intros ->. discriminate E2. }
    code_step H. injection H as H.
    apply with_data_members in E3. destruct E3 as (Hn3 & _).
    pose proof (protect_memory_members sz e
                  (set_num_Char a (m_num_Char a + 1))) as (Hp & _).
    rewrite H in Hp. cbn in Hp.
    split; [ intros _; lia | right; lia ].
  - intros offset ch s r s' H. unfold set_at in H.
    code_step H; [ inv H; reflexivity | ].
    code_step H; [ inv H; reflexivity | ].
    pose proof (unprotect_memory_members sz e s) as (Hn & _).
    code_step H. cbn [snd] in Hn.
    code_step H; [ inv H; exact Hn | ].
    code_step H. injection H as H.
    apply with_data_members in E3. destruct E3 as (Hn3 & _).
    pose proof (protect_memory_members sz e a) as (Hp & _).
    rewrite H in Hp. cbn in Hp. lia.
  - intros offset s s' H. unfold remove_at in H.
    early_return H. code_step H; [ inv H; discriminate | ].
    apply Nat.leb_gt in E0.
    pose proof (unprotect_memory_members sz e s) as (Hn & _).
    code_step H. cbn [snd] in Hn.
    decrypt_failed H E1.
    code_step H. code_step H. injection H as H.
    apply with_data_members in E3, E4.
    destruct E3 as (Hn3 & _). destruct E4 as (Hn4 & _).
    pose proof (protect_memory_members sz e a0) as (Hp & _).
    rewrite H in Hp. cbn in Hp, Hn4. lia.
  - intros s text s' H. unfold to_string in H.
    pose proof (unprotect_memory_members sz e s) as (Hn & _ & Hro & _).
    code_step H. cbn [snd] in Hn, Hro.
    code_step H; [ inv H; cbn; repeat split; auto; lia | ].
    pose proof (protect_memory_members sz e s0) as (Hpn & _ & Hpro & _).
    code_step H; [ | inv H; cbn; repeat split; try congruence; lia ].
    code_step H. code_step H. inv H.
    split; [ congruence | ]. split; [ congruence | ].
    unfold store in E3.
    destruct (m_num_Char (snd (protect_memory sz e s0))
              <? List.length a) eqn:Elt; [ | discriminate E3 ].
    apply Nat.ltb_lt in Elt. injection E3 as E3. subst a0.
    etransitivity; [ apply c_str_prefix_length_le | ].
    rewrite length_firstn. lia.
Qed.

(** ** Failures of construction *)

(** The first allocation, without assumptions on the capability. *)
Lemma ensure_capacity_from_null sz e h n (s : SecureString) :
  0 < sz -> 0 < block_size e ->
  m_data s = None -> m_num_Char_allocated s = 0 ->
  exists req,
    encryptor_required_bytes sz e n = Returns req
    /\ n <= bytes_to_Chars sz req
    /\ ensure_capacity sz e h n s
       = match new_Char h (bytes_to_Chars sz req) with
         | Some fresh =>
             Returns (0%Z, set_num_Char_allocated (set_data s (Some fresh))
                                                  (bytes_to_Chars sz req))
         | None => Returns (ENOMEM, s)
         end.
Proof.
  intros Hsz HB Hd Ha.
  assert (Hreq : exists req,
             encryptor_required_bytes sz e n = Returns req
             /\ 0 < req /\ n * sz <= req).
  { unfold encryptor_required_bytes, Char_to_bytes.
    destruct (n =? 0) eqn:En.
    - apply Nat.eqb_eq in En. subst. eexists. split; [ reflexivity | lia ].
    - apply Nat.eqb_neq in En.
      replace (block_size e =? 0) with false
        by (symmetry; apply Nat.eqb_neq; lia).
      eexists. split; [ reflexivity | ].
      pose proof (round_up_ge (n * sz) _ HB). nia. }
  destruct Hreq as (req & Hreq & Hpos & Hge).
  exists req. split; [ exact Hreq | ].
  unfold bytes_to_Chars.
  split; [ apply Nat.div_le_lower_bound; lia | ].
  unfold ensure_capacity. rewrite Hreq. cbn [bind].
  unfold Char_to_bytes, bytes_to_Chars. rewrite Ha. cbn [Nat.mul].
  replace (req <=? 0) with false by (symmetry; apply Nat.leb_gt; lia).
  destruct (new_Char h (req / sz)); [ | reflexivity ].
  rewrite Hd. cbn [bind]. unfold discard_data. rewrite Hd. reflexivity.
Qed.

(** X5.  The constructors report their failures by exception, in this
    order: an encryptor that is not supported gives
    [SecureStringEncryptorException] whatever the text; then the null
    pointer gives [SecureStringInitializationException]; then, with a free
    store that delivers, [encrypt] is called once, on the array of the
    rounded-up size that holds the text followed by what the free store
    delivered, and a code other than 0 of that call gives
    [SecureStringEncryptionException] with that code, while 0 gives the
    object that holds the output of the call.  No construction throws
    [SecureStringCapacityException]. *)
Theorem construct_reports_failures sz e h :
  0 < sz -> 0 < block_size e -> never_null h ->
  (encryption_supported e = false ->
   construct_empty e = inl SecureStringEncryptorException
   /\ forall str,
        construct sz e h str = Returns (inl SecureStringEncryptorException))
  /\ (encryption_supported e = true ->
      construct sz e h None = Returns (inl SecureStringInitializationException)
      /\ forall a rest,
           NUL_free a ->
           exists req,
             encryptor_required_bytes sz e (List.length a) = Returns req
             /\ List.length a <= bytes_to_Chars sz req
             /\ construct sz e h (Some (a ++ NUL :: rest))
                = Returns
                    (let k := bytes_to_Chars sz req in
                     let buffer :=
                       a ++ skipn (List.length a)
                                  (map (indeterminate h) (seq 0 k)) in
                     let result :=
                       encrypt e buffer (Char_to_bytes sz k)
                               ACCESSIBLE_SAME_PROCESS in
                     if Z.eqb (fst result) 0
                     then inr {| m_num_Char := List.length a;
                                 m_num_Char_allocated := k;
                                 m_data := Some (snd result);
                                 m_ro := false;
                                 m_encrypted := true;
                                 released := [] |}
                     else inl (SecureStringEncryptionException (fst result))))
  /\ (forall str n,
         construct sz e h str
         <> Returns (inl (SecureStringCapacityException n))).
Proof.
  intros Hsz HB Hnn. split; [ | split ].
  - intros Hsup. unfold construct, construct_empty. rewrite Hsup.
    split; [ reflexivity | intros str; reflexivity ].
  - intros Hsup. unfold construct, construct_empty. rewrite Hsup.
    split; [ reflexivity | ].
    intros a rest Hfree. rewrite (strlen_terminated a rest Hfree).
    cbn [bind]. fold empty_buffer.
    set (s1 := set_num_Char empty_buffer (List.length a)).
    replace (m_num_Char s1) with (List.length a) by reflexivity.
    destruct (ensure_capacity_from_null sz e h (List.length a) s1 Hsz HB
                eq_refl eq_refl) as (req & Hreq & Hk & Hens).
    exists req. split; [ exact Hreq | ]. split; [ exact Hk | ].
    rewrite Hens. unfold new_Char. rewrite Hnn.
    cbn [bind negb Z.eqb m_data set_num_Char_allocated set_data
         m_num_Char s1 set_num_Char].
    unfold copy. rewrite length_fresh, length_app.
    replace (List.length a <=? List.length a + List.length (NUL :: rest))
      with true by (symmetry; apply Nat.leb_le; lia).
    replace (List.length a <=? bytes_to_Chars sz req) with true
      by (symmetry; apply Nat.leb_le; lia).
    cbn [andb bind]. unfold protect_memory.
    cbn [m_data m_encrypted set_data set_num_Char_allocated s1
         set_num_Char empty_buffer m_num_Char_allocated].
    rewrite firstn_app, Nat.sub_diag, firstn_all. cbn [firstn].
    rewrite app_nil_r. cbn zeta.
    destruct (encrypt e _ _ _) as [ret data']. cbn [fst snd].
    destruct (Z.eqb ret 0); reflexivity.
  - intros str n H. unfold construct in H.
    code_step H.
    { inv H. unfold construct_empty in E.
      destruct (encryption_supported e); discriminate E. }
    code_step H; [ | inv H ].
    code_step H. code_step H. destruct a0 as [err s2]. cbn in H.
    code_step H.
    + pose proof (ensure_capacity_never_fails _ _ _ _ _ _ _ Hnn E2). subst err.
      discriminate E3.
    + code_step H. code_step H. code_step H; inv H.
Qed.

(** An encryptor that reports itself as supported and whose [encrypt] always
    fails with [EOPNOTSUPP]: X5 (instance). *)
Lemma construct_reports_failures_witness :
  let e := {| encryption_supported := true;
              encrypt := fun buffer _ _ => (EOPNOTSUPP, buffer);
              decrypt := fun buffer _ _ => (0%Z, buffer);
              block_size := 4 |} in
  construct 1 e zeroed_store None
  = Returns (inl SecureStringInitializationException)
  /\ construct 1 e zeroed_store (Some ([97; 98]%Z ++ NUL :: []))
     = Returns (inl (SecureStringEncryptionException EOPNOTSUPP)).
Proof.
  intros e.
  destruct (construct_reports_failures 1 e zeroed_store ltac:(lia)
              ltac:(cbn; lia) zeroed_store_never_null) as (_ & H & _).
  destruct (H eq_refl) as (Hnull & Htext).
  split; [ exact Hnull | ].
  destruct (Htext [97; 98]%Z [] ltac:(repeat constructor; discriminate))
    as (req & Hreq & _ & Hcons).
  injection Hreq as <-. exact Hcons.
Defined.

(** ** Text with NUL at construction *)

(** X6.  The [std::basic_string] constructor passes [c_str()] on, and the
    length is taken with [strlen]: a text with a NUL inside yields the very
    object its part before the first NUL yields; the rest of the text is
    never read. *)
Theorem construct_string_stops_at_first_NUL sz e h (a b : list Char) :
  NUL_free a ->
  construct_string sz e h (a ++ NUL :: b) = construct_string sz e h a.
Proof.
  intros Hfree. unfold construct_string, construct.
  destruct (construct_empty e) as [ ex | s0 ]; [ reflexivity | ].
  rewrite <- app_assoc. cbn [app].
  rewrite (strlen_terminated a (b ++ [NUL]) Hfree).
  rewrite (strlen_terminated a [] Hfree). cbn [bind].
  set (s1 := set_num_Char s0 (List.length a)).
  destruct (ensure_capacity sz e h (m_num_Char s1) s1)
    as [ [err s2] | ] eqn:Hens; cbn [bind]; [ | reflexivity ].
  destruct (negb (Z.eqb err 0)); [ reflexivity | ].
  apply ensure_capacity_members in Hens. destruct Hens as (Hn & _).
  destruct (m_data s2) as [ data | ]; [ | reflexivity ].
  rewrite Hn. unfold s1. cbn [m_num_Char set_num_Char].
  unfold copy. rewrite !length_app. cbn [List.length].
  replace (List.length a <=? List.length a + S (List.length (b ++ [NUL])))
    with true by (symmetry; apply Nat.leb_le; lia).
  replace (List.length a <=? List.length a + 1)
    with true by (symmetry; apply Nat.leb_le; lia).
  rewrite !firstn_app, !firstn_all, Nat.sub_diag. reflexivity.
Qed.

(** X6 (instance): ["ab\0cd"] gives the object of ["ab"]. *)
Lemma construct_string_stops_at_first_NUL_witness :
  construct_string 1 (xor_encryptor 90 4) zeroed_store
                   ([97; 98]%Z ++ NUL :: [99; 100]%Z)
  = construct_string 1 (xor_encryptor 90 4) zeroed_store [97; 98]%Z.
Proof.
  apply (construct_string_stops_at_first_NUL 1 (xor_encryptor 90 4)
           zeroed_store [97; 98]%Z [99; 100]%Z).
  repeat constructor; discriminate.
Defined.

(** ** The object at rest: further operations *)

Lemma xor_90_4_conforming : conforming 1 (xor_encryptor 90 4).
Proof. apply xor_encryptor_conforming; [ lia | left; reflexivity ]. Qed.

Lemma ab_buffer_Rep :
  Rep 1 (xor_encryptor 90 4) ab_buffer [97; 98]%Z [0; 0]%Z.
Proof. eapply Rep_array; reflexivity. Qed.

Lemma Rep_ciphertext_length sz e (s : SecureString) live pad c :
  conforming sz e -> Rep sz e s live pad -> m_data s = Some c ->
  List.length c = m_num_Char_allocated s.
Proof.
  intros (_ & _ & _ & Hconf) [Hd He Hn Ha Hl Hp | c' Hd He Hn Ha Hal Hc] Hs;
    [ congruence | ].
  rewrite Hd in Hs. inv Hs.
  destruct (Hconf (live ++ pad) _ ACCESSIBLE_SAME_PROCESS eq_refl Hal)
    as (c' & Hc' & Hlen & _).
  rewrite Hc in Hc'. inv Hc'. congruence.
Qed.

Lemma Rep_capacity_invariants sz e (s : SecureString) live pad :
  conforming sz e -> Rep sz e s live pad -> capacity_invariants sz e s.
Proof.
  intros Hc HR. unfold capacity_invariants, Char_to_bytes.
  pose proof (Rep_ciphertext_length sz e s live pad) as Hlen.
  destruct HR as [Hd He Hn Ha Hl Hp | c Hd He Hn Ha Hal Hcr].
  - rewrite Hd, Hn, Ha. repeat split; auto.
    cbn [Nat.mul]. apply Nat.Div0.mod_0_l.
  - rewrite Hd, Hn, Ha. rewrite length_app. repeat split.
    + lia.
    + rewrite <- length_app. exact Hal.
    + rewrite <- length_app, <- Ha. apply Hlen; auto.
      eapply Rep_array; eauto.
Qed.

Section AtRest.

Variable sz : nat.
Variable e : Encryptor.
Variable h : Allocator.
Hypothesis sz_pos : 0 < sz.
Hypothesis e_conforming : conforming sz e.
Hypothesis h_never_null : never_null h.

(** X7.  On an object at rest [unprotect_memory] succeeds and exposes the
    stored characters, and [protect_memory] after it gives back exactly the
    object there was: same ciphertext, same members. *)
Theorem unprotect_then_protect_restores (s : SecureString) live pad :
  Rep sz e s live pad ->
  fst (unprotect_memory sz e s) = 0%Z
  /\ logical_characters (snd (unprotect_memory sz e s)) = live
  /\ protect_memory sz e (snd (unprotect_memory sz e s)) = (0%Z, s).
Proof.
  clear sz_pos h_never_null.
  intros HR.
  destruct (Rep_unprotect_protect sz e s live pad e_conforming HR)
    as (s1 & Hu & Hl & Hp).
  rewrite Hu. auto.
Qed.

(** X8.  [to_string] on an object at rest returns the stored characters up
    to their first NUL and leaves the object exactly as it was; so a second
    call returns the same text. *)
Theorem to_string_leaves_the_object (s : SecureString) live pad :
  Rep sz e s live pad ->
  to_string sz e h s = Returns (c_str_prefix live, s).
Proof.
  clear sz_pos.
  intros HR. apply (to_string_Rep_exact sz e h s live pad); auto.
Qed.

(** X9.  [set_at] below the length of a modifiable object at rest returns 0
    and replaces that one character: the length and the padding are as
    before, and [to_string] returns the text with the character replaced. *)
Theorem set_at_replaces_one_character (s : SecureString) live pad offset ch :
  Rep sz e s live pad -> m_ro s = false -> offset < List.length live ->
  exists s',
    set_at sz e offset ch s = Returns (0%Z, s')
    /\ length s' = length s
    /\ stored_characters sz e s'
       = firstn offset live ++ ch :: skipn (S offset) live
    /\ stored_padding sz e s' = pad
    /\ to_string sz e h s'
       = Returns (c_str_prefix
                    (firstn offset live ++ ch :: skipn (S offset) live), s').
Proof.
  intros HR Hro Hlt.
  destruct (set_at_Rep sz e sz_pos e_conforming s live pad offset ch HR Hro Hlt)
    as (s' & Hset & HR' & _).
  destruct (Rep_stored sz e s' _ _ e_conforming HR') as (Hst & Hpad).
  exists s'. split; [ exact Hset | ]. split; [ | split; [ exact Hst | ] ].
  - unfold length.
    rewrite (Rep_num_Char _ _ _ _ _ HR'), (Rep_num_Char _ _ _ _ _ HR).
    destruct (split_at live offset Hlt) as (a & x & b & Hl & Hla & Hf & Hsk).
    rewrite Hf, Hsk, Hl. list_length. reflexivity.
  - split; [ exact Hpad | ].
    apply (to_string_Rep_exact sz e h s' _ pad); auto.
Qed.

(** X10.  [remove_at] below the length of a modifiable object at rest
    returns 0 and takes that one character out: the length is one less, the
    vacated unit is a zero in front of the padding, and [to_string] returns
    the text without the character. *)
Theorem remove_at_takes_one_character_out (s : SecureString) live pad offset :
  Rep sz e s live pad -> m_ro s = false -> offset < List.length live ->
  exists s',
    remove_at sz e offset s = Returns (0%Z, s')
    /\ length s' + 1 = length s
    /\ stored_characters sz e s' = firstn offset live ++ skipn (S offset) live
    /\ stored_padding sz e s' = NUL :: pad
    /\ to_string sz e h s'
       = Returns (c_str_prefix
                    (firstn offset live ++ skipn (S offset) live), s').
Proof.
  intros HR Hro Hlt.
  destruct (remove_at_Rep sz e sz_pos e_conforming s live pad offset HR Hro Hlt)
    as (s' & Hrem & HR' & _).
  destruct (Rep_stored sz e s' _ _ e_conforming HR') as (Hst & Hpad).
  exists s'. split; [ exact Hrem | ]. split; [ | split; [ exact Hst | ] ].
  - unfold length.
    rewrite (Rep_num_Char _ _ _ _ _ HR'), (Rep_num_Char _ _ _ _ _ HR).
    destruct (split_at live offset Hlt) as (a & x & b & Hl & Hla & Hf & Hsk).
    rewrite Hf, Hsk, Hl. list_length. lia.
  - split; [ exact Hpad | ].
    apply (to_string_Rep_exact sz e h s' _ (NUL :: pad)); auto.
Qed.

End AtRest.

(** X7 (instance): the object built from ["ab"]. *)
Lemma unprotect_then_protect_restores_witness :
  fst (unprotect_memory 1 (xor_encryptor 90 4) ab_buffer) = 0%Z
  /\ logical_characters (snd (unprotect_memory 1 (xor_encryptor 90 4) ab_buffer))
     = [97; 98]%Z
  /\ protect_memory 1 (xor_encryptor 90 4)
                    (snd (unprotect_memory 1 (xor_encryptor 90 4) ab_buffer))
     = (0%Z, ab_buffer).
Proof.
  exact (unprotect_then_protect_restores 1 (xor_encryptor 90 4)
           xor_90_4_conforming ab_buffer [97; 98]%Z [0; 0]%Z ab_buffer_Rep).
Defined.

(** X8 (instance) *)
Lemma to_string_leaves_the_object_witness :
  to_string 1 (xor_encryptor 90 4) zeroed_store ab_buffer
  = Returns (c_str_prefix [97; 98]%Z, ab_buffer).
Proof.
  exact (to_string_leaves_the_object 1 (xor_encryptor 90 4) zeroed_store
           xor_90_4_conforming zeroed_store_never_null
           ab_buffer [97; 98]%Z [0; 0]%Z ab_buffer_Rep).
Defined.

(** X9 (instance): [set_at(1, 'z')] on ["ab"]. *)
Lemma set_at_replaces_one_character_witness :
  exists s',
    set_at 1 (xor_encryptor 90 4) 1 122%Z ab_buffer = Returns (0%Z, s')
    /\ length s' = length ab_buffer
    /\ stored_characters 1 (xor_encryptor 90 4) s'
       = firstn 1 [97; 98]%Z ++ 122%Z :: skipn 2 [97; 98]%Z
    /\ stored_padding 1 (xor_encryptor 90 4) s' = [0; 0]%Z
    /\ to_string 1 (xor_encryptor 90 4) zeroed_store s'
       = Returns (c_str_prefix
                    (firstn 1 [97; 98]%Z ++ 122%Z :: skipn 2 [97; 98]%Z), s').
Proof.
  apply (set_at_replaces_one_character 1 (xor_encryptor 90 4) zeroed_store
           ltac:(lia) xor_90_4_conforming zeroed_store_never_null
           ab_buffer [97; 98]%Z [0; 0]%Z 1 122%Z ab_buffer_Rep eq_refl).
  cbn. lia.
Defined.

(** X10 (instance): [remove_at(0)] on ["ab"]. *)
Lemma remove_at_takes_one_character_out_witness :
  exists s',
    remove_at 1 (xor_encryptor 90 4) 0 ab_buffer = Returns (0%Z, s')
    /\ length s' + 1 = length ab_buffer
    /\ stored_characters 1 (xor_encryptor 90 4) s'
       = firstn 0 [97; 98]%Z ++ skipn 1 [97; 98]%Z
    /\ stored_padding 1 (xor_encryptor 90 4) s' = NUL :: [0; 0]%Z
    /\ to_string 1 (xor_encryptor 90 4) zeroed_store s'
       = Returns (c_str_prefix (firstn 0 [97; 98]%Z ++ skipn 1 [97; 98]%Z), s').
Proof.
  apply (remove_at_takes_one_character_out 1 (xor_encryptor 90 4) zeroed_store
           ltac:(lia) xor_90_4_conforming zeroed_store_never_null
           ab_buffer [97; 98]%Z [0; 0]%Z 0 ab_buffer_Rep eq_refl).
  cbn. lia.
Defined.

(** X11.  Construction, edits and retrieval compose: for a text without
    NUL and a sequence of [append] and [remove_at] whose offsets are within
    the text as it then stands, every edit on the constructed object returns
    0, [length()] is the length of the plain result, and [to_string()]
    returns the plain result as far as its first NUL. *)
Theorem construct_edits_to_string_compose sz e h str es :
  0 < sz -> conforming sz e -> never_null h ->
  NUL_free str -> appends_and_removals es str ->
  exists s s' s'',
    construct_string sz e h str = Returns (inr s)
    /\ run_edits sz e h es s = Returns (0%Z, s')
    /\ length s' = List.length (plain_edits es str)
    /\ to_string sz e h s'
       = Returns (c_str_prefix (plain_edits es str), s'').
Proof.
  intros Hsz Hc Hnn Hfree Hok.
  destruct (construct_Rep sz e h Hsz Hc Hnn str Hfree)
    as (s & pad & Hcons & HR & Hro & _).
  destruct (appends_and_removals_refine_plain sz e h Hsz Hc Hnn es
              s str pad HR Hro Hok)
    as (s' & pad' & s'' & Hrun & _ & Hlen & Hts).
  exists s, s', s''. auto.
Qed.

(** X11 (instance): ["ab"], [append('!')], [append('?')], [append('.')]
    (which outgrows the array of 4 units), [remove_at(0)]. *)
Lemma construct_edits_to_string_compose_witness :
  let es := [Append 33%Z; Append 63%Z; Append 46%Z; RemoveAt 0] in
  exists s s' s'',
    construct_string 1 (xor_encryptor 90 4) zeroed_store [97; 98]%Z
    = Returns (inr s)
    /\ run_edits 1 (xor_encryptor 90 4) zeroed_store es s = Returns (0%Z, s')
    /\ length s' = List.length (plain_edits es [97; 98]%Z)
    /\ to_string 1 (xor_encryptor 90 4) zeroed_store s'
       = Returns (c_str_prefix (plain_edits es [97; 98]%Z), s'').
Proof.
  intros es.
  apply (construct_edits_to_string_compose 1 (xor_encryptor 90 4) zeroed_store
           [97; 98]%Z es ltac:(lia) xor_90_4_conforming
           zeroed_store_never_null).
  - unfold NUL_free. repeat constructor; discriminate.
  - cbn. lia.
Defined.

(** ** Clearing and destruction *)

Lemma clear_Rep sz e (s : SecureString) live pad :
  conforming sz e -> Rep sz e s live pad -> m_ro s = false ->
  exists s',
    clear s = Returns (0%Z, s')
    /\ Rep sz e s' [] [] /\ m_ro s' = false.
Proof.
  intros Hc HR Hro.
  pose proof (Rep_ciphertext_length sz e s live pad) as Hlen.
  pose proof (Rep_num_Char _ _ _ _ _ HR) as Hn.
  unfold clear, protected_clear. rewrite Hro.
  destruct (m_data s) as [ c | ] eqn:Hd.
  - specialize (Hlen c Hc HR eq_refl).
    assert (Hfit : m_num_Char s <= List.length c).
    { destruct HR as [Hd' He Hn' Ha Hl Hp | c' Hd' He Hn' Ha Hal Hcr];
        [ congruence | ].
      rewrite Hlen, Ha, Hn', length_app. lia. }
    rewrite (discard_data_released s c Hd Hfit). cbn [bind].
    eexists. split; [ reflexivity | ].
    split; [ apply Rep_null; reflexivity | exact Hro ].
  - unfold discard_data. rewrite Hd. cbn [bind].
    eexists. split; [ reflexivity | ].
    split; [ apply Rep_null; cbn; auto | exact Hro ].
Qed.

(** X12.  [clear] on a modifiable object at rest returns 0 and leaves an
    object without array and of length 0, for which [to_string] returns the
    empty text, and which can be filled again: [append] on it allocates
    anew and succeeds. *)
Theorem clear_empties_the_object sz e h (s : SecureString) live pad :
  0 < sz -> conforming sz e -> never_null h ->
  Rep sz e s live pad -> m_ro s = false ->
  exists s',
    clear s = Returns (0%Z, s')
    /\ m_data s' = None
    /\ length s' = 0
    /\ to_string sz e h s' = Returns ([], s')
    /\ forall ch,
         exists s'' pad' s''',
           append sz e h ch s' = Returns (0%Z, s'')
           /\ Rep sz e s'' [ch] pad'
           /\ to_string sz e h s'' = Returns (c_str_prefix [ch], s''').
Proof.
  intros Hsz Hc Hnn HR Hro.
  destruct (clear_Rep sz e s live pad Hc HR Hro) as (s' & Hcl & HR' & Hro').
  exists s'. split; [ exact Hcl | ].
  split.
  { destruct HR' as [Hd _ _ _ _ _ | c Hd _ Hn Ha _ _]; [ exact Hd | ].
    exfalso. unfold clear, protected_clear in Hcl. rewrite Hro in Hcl.
    code_step Hcl. inv Hcl. apply discard_data_members in E.
    cbn in Hd. destruct E as (_ & _ & _ & E). congruence. }
  split; [ unfold length; apply (Rep_num_Char _ _ _ _ _ HR') | ].
  split; [ apply (to_string_Rep_exact sz e h s' [] []); auto | ].
  intros ch.
  destruct (append_Rep sz e h Hsz Hc Hnn s' [] [] ch HR' Hro')
    as (s'' & pad' & Happ & HR'' & _).
  destruct (to_string_Rep sz e h Hsz Hc Hnn s'' _ pad' HR'')
    as (s''' & Hts & _).
  exists s'', pad', s'''. auto.
Qed.

(** X12 (instance): the object built from ["ab"]. *)
Lemma clear_empties_the_object_witness :
  exists s',
    clear ab_buffer = Returns (0%Z, s')
    /\ m_data s' = None
    /\ length s' = 0
    /\ to_string 1 (xor_encryptor 90 4) zeroed_store s' = Returns ([], s')
    /\ forall ch,
         exists s'' pad' s''',
           append 1 (xor_encryptor 90 4) zeroed_store ch s' = Returns (0%Z, s'')
           /\ Rep 1 (xor_encryptor 90 4) s'' [ch] pad'
           /\ to_string 1 (xor_encryptor 90 4) zeroed_store s''
              = Returns (c_str_prefix [ch], s''').
Proof.
  exact (clear_empties_the_object 1 (xor_encryptor 90 4) zeroed_store
           ab_buffer [97; 98]%Z [0; 0]%Z
           ltac:(lia) xor_90_4_conforming zeroed_store_never_null
           ab_buffer_Rep eq_refl).
Defined.

(** X13.  The destructor does not fail, read-only or not: for an object
    whose logical length fits its array it leaves no array, length 0 and
    the flags cleared, and the array it releases has its first
    [m_num_Char] units zero (the units after them are as they were). *)
Theorem destructor_wipes_and_releases (s : SecureString) :
  (forall d, m_data s = Some d -> m_num_Char s <= List.length d) ->
  exists s',
    destroy s = Returns s'
    /\ m_data s' = None
    /\ m_num_Char s' = 0 /\ m_num_Char_allocated s' = 0
    /\ m_encrypted s' = false /\ m_ro s' = false
    /\ match m_data s with
       | Some d =>
           released s'
           = (repeat NUL (m_num_Char s) ++ skipn (m_num_Char s) d)
               :: released s
       | None => released s' = released s
       end.
Proof.
  intros Hfit. unfold destroy, protected_clear. cbn [set_ro m_ro].
  destruct (m_data s) as [ d | ] eqn:Hd.
  - specialize (Hfit d eq_refl).
    rewrite (discard_data_released (set_ro s false) d Hd Hfit). cbn [bind].
    eexists. split; [ reflexivity | ]. cbn. repeat split.
  - unfold discard_data. cbn [set_ro m_data]. rewrite Hd. cbn [bind].
    eexists. split; [ reflexivity | ]. cbn. repeat split. exact Hd.
Qed.

(** X13 (instance): the read-only object holding ["ab"]. *)
Lemma destructor_wipes_and_releases_witness :
  exists s',
    destroy ab_read_only_buffer = Returns s'
    /\ m_data s' = None
    /\ m_num_Char s' = 0 /\ m_num_Char_allocated s' = 0
    /\ m_encrypted s' = false /\ m_ro s' = false
    /\ released s' = [[0; 0; 90; 90]%Z].
Proof.
  apply (destructor_wipes_and_releases ab_read_only_buffer).
  intros d Hd. injection Hd as <-. cbn. lia.
Defined.

(** ** The invariants of the capacity *)

(** X15.  The object a construction from text yields keeps the logical
    length within the allocated length, has an array of the allocated
    length, and has its allocated bytes in whole blocks; so does every
    object at rest, and [append], [insert_at], [set_at], [remove_at] and
    [clear] on a modifiable object at rest return 0 and yield an object at
    rest again, for which the same holds.  [size()] is within the allocated
    bytes. *)
Theorem capacity_invariants_are_kept sz e h :
  0 < sz -> conforming sz e -> never_null h ->
  (forall str,
      NUL_free str ->
      exists s pad,
        construct_string sz e h str = Returns (inr s)
        /\ Rep sz e s str pad /\ capacity_invariants sz e s)
  /\ forall s live pad,
       Rep sz e s live pad -> m_ro s = false ->
       capacity_invariants sz e s
       /\ size sz s <= Char_to_bytes sz (m_num_Char_allocated s)
       /\ (forall ch,
              exists s' live' pad',
                append sz e h ch s = Returns (0%Z, s')
                /\ Rep sz e s' live' pad' /\ capacity_invariants sz e s')
       /\ (forall offset ch,
              offset < length s ->
              (exists s' live' pad',
                  insert_at sz e h offset ch s = Returns (0%Z, s')
                  /\ Rep sz e s' live' pad' /\ capacity_invariants sz e s')
              /\ (exists s' live' pad',
                     set_at sz e offset ch s = Returns (0%Z, s')
                     /\ Rep sz e s' live' pad'
                     /\ capacity_invariants sz e s')
              /\ (exists s' live' pad',
                     remove_at sz e offset s = Returns (0%Z, s')
                     /\ Rep sz e s' live' pad'
                     /\ capacity_invariants sz e s'))
       /\ (exists s' live' pad',
              clear s = Returns (0%Z, s')
              /\ Rep sz e s' live' pad' /\ capacity_invariants sz e s').
Proof.
  intros Hsz Hc Hnn. split.
  - intros str Hfree.
    destruct (construct_Rep sz e h Hsz Hc Hnn str Hfree)
      as (s & pad & Hcons & HR & _).
    exists s, pad. repeat split; auto.
    all: apply (Rep_capacity_invariants sz e s str pad Hc HR).
  - intros s live pad HR Hro.
    pose proof (Rep_capacity_invariants sz e s live pad Hc HR) as Hinv.
    split; [ exact Hinv | ].
    split.
    { destruct Hinv as (Hle & _). unfold size, Char_to_bytes. nia. }
    unfold length. rewrite (Rep_num_Char _ _ _ _ _ HR).
    split; [ | split ].
    + intros ch.
      destruct (append_Rep sz e h Hsz Hc Hnn s live pad ch HR Hro)
        as (s' & pad' & Hop & HR' & _).
      exists s', (live ++ [ch]), pad'.
      split; [ exact Hop | split; [ exact HR' | ] ].
      apply (Rep_capacity_invariants sz e s' _ _ Hc HR').
    + intros offset ch Hlt. split; [ | split ].
      * destruct (insert_at_Rep sz e h Hsz Hc Hnn s live pad offset ch
                    HR Hro Hlt) as (s' & live' & c & pad' & Hop & HR' & _).
        exists s', live', (c :: pad').
        split; [ exact Hop | split; [ exact HR' | ] ].
        apply (Rep_capacity_invariants sz e s' _ _ Hc HR').
      * destruct (set_at_Rep sz e Hsz Hc s live pad offset ch HR Hro Hlt)
          as (s' & Hop & HR' & _).
        do 3 eexists. split; [ exact Hop | split; [ exact HR' | ] ].
        apply (Rep_capacity_invariants sz e s' _ _ Hc HR').
      * destruct (remove_at_Rep sz e Hsz Hc s live pad offset HR Hro Hlt)
          as (s' & Hop & HR' & _).
        do 3 eexists. split; [ exact Hop | split; [ exact HR' | ] ].
        apply (Rep_capacity_invariants sz e s' _ _ Hc HR').
    + destruct (clear_Rep sz e s live pad Hc HR Hro) as (s' & Hop & HR' & _).
      do 3 eexists. split; [ exact Hop | split; [ exact HR' | ] ].
      apply (Rep_capacity_invariants sz e s' _ _ Hc HR').
Qed.

(** X15 (instance): the object built from ["ab"]. *)
Lemma capacity_invariants_are_kept_witness :
  capacity_invariants 1 (xor_encryptor 90 4) ab_buffer
  /\ forall ch,
       exists s' live' pad',
         append 1 (xor_encryptor 90 4) zeroed_store ch ab_buffer
         = Returns (0%Z, s')
         /\ Rep 1 (xor_encryptor 90 4) s' live' pad'
         /\ capacity_invariants 1 (xor_encryptor 90 4) s'.
Proof.
  destruct (capacity_invariants_are_kept 1 (xor_encryptor 90 4) zeroed_store
              ltac:(lia) xor_90_4_conforming zeroed_store_never_null)
    as (_ & H).
  destruct (H ab_buffer [97; 98]%Z [0; 0]%Z ab_buffer_Rep eq_refl)
    as (Hinv & _ & Happ & _).
  split; [ exact Hinv | exact Happ ].
Defined.

(** ** WinEncryptor *)

Lemma masking_platform_serves : platform_serves 1 masking_platform.
Proof.
  unfold platform_serves. cbn.
  split; [ lia | ]. split; [ reflexivity | ]. split; [ discriminate | ].
  intros buffer num_bytes flags _.
  exists (map (Z.lxor 90) buffer).
  split; [ reflexivity | split; [ apply length_map | ] ].
  f_equal. rewrite map_map. rewrite <- (map_id buffer) at 2.
  apply map_ext. intros c.
  rewrite <- Z.lxor_assoc, Z.lxor_nilpotent. apply Z.lxor_0_l.
Qed.

(** On a platform whose primitives serve the unit size, [WinEncryptor] is a
    conforming capability. *)
Lemma WinEncryptor_conforming sz p :
  platform_serves sz p -> conforming sz (WinEncryptor p).
Proof.
  intros (Hpos & Hdiv & Hmalloc & Hprim). unfold conforming. cbn.
  unfold Win_encryption_supported, Win_encrypt, Win_decrypt, Win_block_size.
  split.
  { destruct (malloc p (RTL_ENCRYPT_MEMORY_SIZE p)) as [ ptr | ] eqn:Hm;
      [ | exfalso; exact (Hmalloc _ Hm) ].
    destruct (Hprim ptr (RTL_ENCRYPT_MEMORY_SIZE p)
                CRYPTPROTECTMEMORY_SAME_PROCESS (Nat.Div0.mod_same _))
      as (c & Hc & _).
    rewrite Hc. reflexivity. }
  split; [ exact Hpos | ]. split; [ left; exact Hdiv | ].
  intros buffer num_bytes flags _ Hal.
  destruct (Hprim buffer num_bytes (flags_ULONG flags) Hal)
    as (c & Henc & Hlen & Hdec).
  apply Nat.eqb_eq in Hal. rewrite Hal. cbn [negb].
  exists c. rewrite Henc, Hdec. cbn. auto.
Qed.

(** X16.  With a positive block size, [WinEncryptor::encrypt] and
    [decrypt] answer a byte count that is not a whole number of blocks with
    [EMSGSIZE] and leave the buffer alone; on whole blocks they return
    [EOPNOTSUPP] when the system primitive is refused and 0 when it
    succeeds, the buffer being what the primitive left. *)
Theorem WinEncryptor_checks_the_size p :
  0 < RTL_ENCRYPT_MEMORY_SIZE p ->
  (forall buffer num_bytes flags,
      num_bytes mod RTL_ENCRYPT_MEMORY_SIZE p <> 0 ->
      encrypt (WinEncryptor p) buffer num_bytes flags = (EMSGSIZE, buffer)
      /\ decrypt (WinEncryptor p) buffer num_bytes flags = (EMSGSIZE, buffer))
  /\ (forall buffer num_bytes flags,
         num_bytes mod RTL_ENCRYPT_MEMORY_SIZE p = 0 ->
         encrypt (WinEncryptor p) buffer num_bytes flags
         = ((if Z.eqb (fst (SystemFunction040 p buffer num_bytes
                                              (flags_ULONG flags)))
                      STATUS_SUCCESS
             then 0%Z else EOPNOTSUPP),
            snd (SystemFunction040 p buffer num_bytes (flags_ULONG flags)))
         /\ decrypt (WinEncryptor p) buffer num_bytes flags
            = ((if Z.eqb (fst (SystemFunction041 p buffer num_bytes
                                                 (flags_ULONG flags)))
                         STATUS_SUCCESS
                then 0%Z else EOPNOTSUPP),
               snd (SystemFunction041 p buffer num_bytes
                                      (flags_ULONG flags)))).
Proof.
  intros _. split.
  - intros buffer num_bytes flags Hmis. cbn.
    unfold Win_encrypt, Win_decrypt, Win_block_size.
    apply Nat.eqb_neq in Hmis. rewrite Hmis. split; reflexivity.
  - intros buffer num_bytes flags Hal. cbn.
    unfold Win_encrypt, Win_decrypt, Win_block_size.
    apply Nat.eqb_eq in Hal. rewrite Hal. cbn [negb].
    split.
    + destruct (SystemFunction040 p buffer num_bytes (flags_ULONG flags))
        as [sts b']. cbn [fst snd].
      destruct (Z.eqb sts STATUS_SUCCESS); reflexivity.
    + destruct (SystemFunction041 p buffer num_bytes (flags_ULONG flags))
        as [sts b']. cbn [fst snd].
      destruct (Z.eqb sts STATUS_SUCCESS); reflexivity.
Qed.

(** X16 (instance): three units are not a whole block of 8 bytes. *)
Lemma WinEncryptor_checks_the_size_witness :
  0 < RTL_ENCRYPT_MEMORY_SIZE masking_platform
  /\ encrypt (WinEncryptor masking_platform) [1; 2; 3]%Z 3
             ACCESSIBLE_SAME_PROCESS
     = (EMSGSIZE, [1; 2; 3]%Z).
Proof.
  split; [ cbn; lia | ].
  apply (WinEncryptor_checks_the_size masking_platform); cbn;
    [ lia | discriminate ].
Defined.

(** X17.  The self-test of [WinEncryptor] fails when [malloc] does not
    deliver or when the trial call of the primitive is refused; then both
    constructors of [SecureString] throw [SecureStringEncryptorException],
    whatever the text.  On a platform whose primitives serve the unit size
    the object built from a text gives the text back. *)
Theorem SecureString_over_WinEncryptor sz p h :
  ((malloc p (RTL_ENCRYPT_MEMORY_SIZE p) = None
    \/ exists ptr,
         malloc p (RTL_ENCRYPT_MEMORY_SIZE p) = Some ptr
         /\ fst (SystemFunction040 p ptr (RTL_ENCRYPT_MEMORY_SIZE p)
                                   CRYPTPROTECTMEMORY_SAME_PROCESS)
            <> STATUS_SUCCESS) ->
   construct_empty (WinEncryptor p) = inl SecureStringEncryptorException
   /\ forall str,
        construct sz (WinEncryptor p) h str
        = Returns (inl SecureStringEncryptorException))
  /\ (0 < sz -> platform_serves sz p -> never_null h ->
      forall str,
        NUL_free str ->
        exists s,
          construct_string sz (WinEncryptor p) h str = Returns (inr s)
          /\ length s = List.length str
          /\ to_string sz (WinEncryptor p) h s = Returns (str, s)).
Proof.
  split.
  - intros Hfail.
    assert (Hsup : encryption_supported (WinEncryptor p) = false).
    { cbn. unfold Win_encryption_supported, Win_block_size.
      destruct Hfail as [Hm | (ptr & Hm & Hsts)]; rewrite Hm;
        [ reflexivity | ].
      apply Z.eqb_neq. exact Hsts. }
    unfold construct, construct_empty. rewrite Hsup.
    split; [ reflexivity | intros str; reflexivity ].
  - intros Hsz Hserves Hnn str Hfree.
    pose proof (WinEncryptor_conforming sz p Hserves) as Hc.
    destruct (construct_Rep sz (WinEncryptor p) h Hsz Hc Hnn str Hfree)
      as (s & pad & Hcons & HR & _).
    exists s. split; [ exact Hcons | ].
    split; [ unfold length; apply (Rep_num_Char _ _ _ _ _ HR) | ].
    rewrite (to_string_Rep_exact sz (WinEncryptor p) h s str pad Hc Hnn HR).
    rewrite (c_str_prefix_NUL_free str Hfree). reflexivity.
Qed.

(** X17 (instance): ["hello world"] on the masking platform. *)
Lemma SecureString_over_WinEncryptor_witness :
  exists s,
    construct_string 1 (WinEncryptor masking_platform) zeroed_store hello_world
    = Returns (inr s)
    /\ length s = List.length hello_world
    /\ to_string 1 (WinEncryptor masking_platform) zeroed_store s
       = Returns (hello_world, s).
Proof.
  apply (proj2 (SecureString_over_WinEncryptor 1 masking_platform
                  zeroed_store)).
  - lia.
  - exact masking_platform_serves.
  - exact zeroed_store_never_null.
  - unfold NUL_free, hello_world. repeat constructor; discriminate.
Defined.

(** The example of the README on the masking platform: ["hello world"],
    [append('!')], [to_string()]. *)
Example readme_example :
  exists s0 s1 s2,
    construct_string 1 (WinEncryptor masking_platform) zeroed_store hello_world
    = Returns (inr s0)
    /\ append 1 (WinEncryptor masking_platform) zeroed_store 33%Z s0
       = Returns (0%Z, s1)
    /\ to_string 1 (WinEncryptor masking_platform) zeroed_store s1
       = Returns (hello_world ++ [33%Z], s2).
Proof.
  do 3 eexists.
  repeat (split; [ vm_compute; reflexivity | ]).
  vm_compute; reflexivity.
Qed.

(** ** SafeStringBuffer *)

(** X18.  [to_safe_string] on an object at rest returns a
    [SafeStringBuffer] whose [string()] is the text [to_string] returns and
    leaves the object as it was; the destructor of any [SafeStringBuffer]
    overwrites the whole wrapped string with zeros, keeping its length. *)
Theorem to_safe_string_wraps_and_wipes sz e h :
  (forall b,
      SafeStringBuffer_destroy b
      = Returns (repeat NUL (List.length (SafeStringBuffer_string b)))
      /\ all_NUL (repeat NUL (List.length (SafeStringBuffer_string b))))
  /\ (forall s live pad,
         conforming sz e -> never_null h -> Rep sz e s live pad ->
         exists b,
           to_safe_string sz e h s = Returns (b, s)
           /\ SafeStringBuffer_string b = c_str_prefix live)
  /\ (forall s,
         fst (unprotect_memory sz e s) <> 0%Z ->
         exists b s',
           to_safe_string sz e h s = Returns (b, s')
           /\ SafeStringBuffer_string b = []).
Proof.
  split; [ | split ].
  - intros b. unfold SafeStringBuffer_destroy, SafeStringBuffer_string, fill.
    rewrite Nat.leb_refl, skipn_all, app_nil_r.
    split; [ reflexivity | ].
    unfold all_NUL. apply Forall_forall. intros c Hc.
    apply repeat_spec in Hc. exact Hc.
  - intros s live pad Hc Hnn HR. unfold to_safe_string.
    rewrite (to_string_Rep_exact sz e h s live pad Hc Hnn HR). cbn [bind].
    eexists. split; reflexivity.
  - intros s Herr. unfold to_safe_string.
    rewrite (to_string_unprotect_failure sz e h s Herr). cbn [bind].
    do 2 eexists. split; reflexivity.
Qed.

(** X18 (instance): the object built from ["ab"]. *)
Lemma to_safe_string_wraps_and_wipes_witness :
  exists b,
    to_safe_string 1 (xor_encryptor 90 4) zeroed_store ab_buffer
    = Returns (b, ab_buffer)
    /\ SafeStringBuffer_string b = c_str_prefix [97; 98]%Z.
Proof.
  apply (proj1 (proj2 (to_safe_string_wraps_and_wipes
                         1 (xor_encryptor 90 4) zeroed_store))
           ab_buffer [97; 98]%Z [0; 0]%Z
           xor_90_4_conforming zeroed_store_never_null ab_buffer_Rep).
Defined.

(** ** What raises the read-only flag *)

Lemma append_keeps_ro sz e h ch (s s' : SecureString) r :
  append sz e h ch s = Returns (r, s') -> m_ro s' = m_ro s.
Proof.
  intros H. unfold append in H.
  code_step H; [ inv H; congruence | ].
  pose proof (unprotect_memory_members sz e s) as (_ & _ & Hro & _).
  code_step H. cbn [snd] in Hro.
  code_step H; [ inv H; congruence | ].
  code_step H. destruct a as [r2 s2]. cbn in H.
  apply ensure_capacity_members in E2. destruct E2 as (_ & Hro2 & _).
  code_step H; [ inv H; congruence | ].
  code_step H. injection H as H.
  apply with_data_members in E3. destruct E3 as (_ & Hro3 & _).
  pose proof (protect_memory_members sz e
                (set_num_Char a (m_num_Char a + 1))) as (_ & _ & Hp & _).
  rewrite H in Hp. cbn in Hp. congruence.
Qed.

Lemma insert_at_keeps_ro sz e h offset ch (s s' : SecureString) r :
  insert_at sz e h offset ch s = Returns (r, s') -> m_ro s' = m_ro s.
Proof.
  intros H. unfold insert_at in H.
  code_step H; [ inv H; congruence | ].
  code_step H; [ inv H; congruence | ].
  pose proof (unprotect_memory_members sz e s) as (_ & _ & Hro & _).
  code_step H. cbn [snd] in Hro.
  code_step H; [ inv H; congruence | ].
  code_step H. destruct a as [r2 s2]. cbn in H.
  code_step H. code_step H. injection H as H.
  apply ensure_capacity_members in E3. destruct E3 as (_ & Hro2 & _).
  apply with_data_members in E4, E5.
  destruct E4 as (_ & Hro4 & _). destruct E5 as (_ & Hro5 & _).
  pose proof (protect_memory_members sz e a0) as (_ & _ & Hp & _).
  rewrite H in Hp. cbn in Hp. congruence.
Qed.

Lemma set_at_keeps_ro sz e offset ch (s s' : SecureString) r :
  set_at sz e offset ch s = Returns (r, s') -> m_ro s' = m_ro s.
Proof.
  intros H. unfold set_at in H.
  code_step H; [ inv H; congruence | ].
  code_step H; [ inv H; congruence | ].
  pose proof (unprotect_memory_members sz e s) as (_ & _ & Hro & _).
  code_step H. cbn [snd] in Hro.
  code_step H; [ inv H; congruence | ].
  code_step H. injection H as H.
  apply with_data_members in E3. destruct E3 as (_ & Hro3 & _).
  pose proof (protect_memory_members sz e a) as (_ & _ & Hp & _).
  rewrite H in Hp. cbn in Hp. congruence.
Qed.

Lemma remove_at_keeps_ro sz e offset (s s' : SecureString) r :
  remove_at sz e offset s = Returns (r, s') -> m_ro s' = m_ro s.
Proof.
  intros H. unfold remove_at in H.
  code_step H; [ inv H; congruence | ].
  code_step H; [ inv H; congruence | ].
  pose proof (unprotect_memory_members sz e s) as (_ & _ & Hro & _).
  code_step H. cbn [snd] in Hro.
  code_step H; [ inv H; congruence | ].
  code_step H. code_step H. injection H as H.
  apply with_data_members in E3, E4.
  destruct E3 as (_ & Hro3 & _). destruct E4 as (_ & Hro4 & _).
  pose proof (protect_memory_members sz e a0) as (_ & _ & Hp & _).
  rewrite H in Hp. cbn in Hp, Hro4. congruence.
Qed.

Lemma clear_keeps_ro (s s' : SecureString) r :
  clear s = Returns (r, s') -> m_ro s' = m_ro s.
Proof.
  intros H. unfold clear, protected_clear in H.
  code_step H; [ inv H; congruence | ].
  code_step H. inv H. cbn.
  apply discard_data_members in E0. destruct E0 as (_ & Hro & _).
  congruence.
Qed.

(** X19.  No operation raises the read-only flag.  The constructors from an
    encryptor and from text initialise it to false; [append], [insert_at],
    [set_at], [remove_at], [clear] and [to_string] leave it as it is,
    whatever they return; [make_ro] stores false.  So after any sequence of
    edits a modifiable object is modifiable. *)
Theorem nothing_raises_the_read_only_flag sz e h :
  (forall s, construct_empty e = inr s -> is_ro s = false)
  /\ (forall str s, construct sz e h str = Returns (inr s) -> is_ro s = false)
  /\ (forall ch s r s',
         append sz e h ch s = Returns (r, s') -> is_ro s' = is_ro s)
  /\ (forall offset ch s r s',
         insert_at sz e h offset ch s = Returns (r, s') -> is_ro s' = is_ro s)
  /\ (forall offset ch s r s',
         set_at sz e offset ch s = Returns (r, s') -> is_ro s' = is_ro s)
  /\ (forall offset s r s',
         remove_at sz e offset s = Returns (r, s') -> is_ro s' = is_ro s)
  /\ (forall s r s', clear s = Returns (r, s') -> is_ro s' = is_ro s)
  /\ (forall s text s',
         to_string sz e h s = Returns (text, s') -> is_ro s' = is_ro s)
  /\ (forall s, is_ro (make_ro s) = false)
  /\ (forall es s r s',
         run_edits sz e h es s = Returns (r, s') -> is_ro s' = is_ro s).
Proof.
  unfold is_ro.
  split; [ | split; [ | split; [ | split; [ | split; [ | split;
    [ | split; [ | split; [ | split ] ] ] ] ] ] ] ].
  - intros s H. unfold construct_empty in H.
    destruct (encryption_supported e); inv H. reflexivity.
  - intros str s H. unfold construct in H.
    code_step H; [ discriminate H | ].
    assert (Hro0 : m_ro s0 = false).
    { unfold construct_empty in E.
      destruct (encryption_supported e); inv E. reflexivity. }
    code_step H; [ | discriminate H ].
    code_step H. code_step H. destruct a0 as [err s2]. cbn in H.
    apply ensure_capacity_members in E2. destruct E2 as (_ & Hro2 & _).
    cbn in Hro2.
    code_step H; [ discriminate H | ].
    code_step H.
    assert (Hro3 : m_ro a0 = m_ro s2).
    { destruct (m_data s2).
      - code_step E3. inv E3. reflexivity.
      - destruct (m_num_Char s2 =? 0); inv E3. reflexivity. }
    pose proof (protect_memory_members sz e a0) as (_ & _ & Hp & _).
    code_step H. cbn [snd] in Hp.
    code_step H; inv H. congruence.
  - intros ch s r s'. apply append_keeps_ro.
  - intros offset ch s r s'. apply insert_at_keeps_ro.
  - intros offset ch s r s'. apply set_at_keeps_ro.
  - intros offset s r s'. apply remove_at_keeps_ro.
  - intros s r s'. apply clear_keeps_ro.
  - intros s text s' H. unfold to_string in H.
    pose proof (unprotect_memory_members sz e s) as (_ & _ & Hro & _).
    code_step H. cbn [snd] in Hro.
    code_step H; [ inv H; exact Hro | ].
    pose proof (protect_memory_members sz e s0) as (_ & _ & Hpro & _).
    code_step H; [ | inv H; congruence ].
    code_step H. code_step H. inv H. congruence.
  - intros s. reflexivity.
  - induction es as [ | ed rest IH ]; intros s r s' H; cbn [run_edits] in H.
    + inv H. reflexivity.
    + code_step H. destruct a as [err s1]. cbn in H.
      assert (Hed : m_ro s1 = m_ro s).
      { destruct ed; cbn [edit_buffer] in E.
        - eapply append_keeps_ro; eauto.
        - eapply insert_at_keeps_ro; eauto.
        - eapply remove_at_keeps_ro; eauto. }
      code_step H.
      * rewrite (IH _ _ _ H). exact Hed.
      * inv H. exact Hed.
Qed.
